(** * fly_in: the time-expanded flow network of [data_model.c]

    A shallow embedding of the node indexer ([hub_time], [IN], [OUT],
    [TRANSIT]), of the adjacency store ([graph], [add_edge]), of the
    builder ([build_example]), of the printer ([print_graph]) and of
    [main], followed by the properties of the indexer, of the store, of
    the built network and of the printed text.

    C [int] values are modelled as [Z].  Signed overflow is undefined in C;
    [hub_ids_fit_int] and [transit_ids_fit_int] show that no computation
    of the indexer leaves
    [0, TOTAL_NODES] on valid coordinates, so the model agrees with the
    program whenever [TOTAL_NODES] fits an [int] (it is 28 with the macros
    of the file). *)

From stdpp Require Import base tactics option list list_numbers strings pretty.
From Stdlib Require Import ZArith Lia Ascii.

#[local] Open Scope Z_scope.

(** ** The macros *)

(** [#define N_HUBS 3], [#define T 3], [#define M_RESTRICTED 1]: the three
    macros are the parameters of the whole file. *)
Class Macros : Type := {
  N_HUBS : Z;
  T : Z;
  M_RESTRICTED : Z
}.

(** The values the file is compiled with. *)
Definition reference : Macros :=
  {| N_HUBS := 3; T := 3; M_RESTRICTED := 1 |}.

(** [#define MAX_EDGES 128] *)
Definition MAX_EDGES : Z := 128.

Definition INT_MAX : Z := 2147483647.

Section Indexer.
Context {m : Macros}.

Definition HUB_TIME_COUNT : Z := (T + 1) * N_HUBS.
Definition HUB_SPLIT_COUNT : Z := 2 * HUB_TIME_COUNT.
Definition TRANSIT_OFFSET : Z := HUB_SPLIT_COUNT.
Definition TRANSIT_COUNT : Z := (T + 1) * M_RESTRICTED.
Definition TOTAL_NODES : Z := HUB_SPLIT_COUNT + TRANSIT_COUNT.

(** ** ID helpers *)

Definition hub_time (u t : Z) : Z := t * N_HUBS + u.

Definition IN (u t : Z) : Z := 2 * hub_time u t.

Definition OUT (u t : Z) : Z := 2 * hub_time u t + 1.

Definition TRANSIT (eid t_wait : Z) : Z :=
  TRANSIT_OFFSET + t_wait * M_RESTRICTED + eid.

(** ** Semantic coordinates

    The three node families of the layout, and the coordinates that are
    in range. *)

Inductive coord : Type :=
  | Arrival (hub t : Z)
  | Departure (hub t : Z)
  | TransitSlot (route t : Z).

Definition node_id (c : coord) : Z :=
  match c with
  | Arrival hub t => IN hub t
  | Departure hub t => OUT hub t
  | TransitSlot route t => TRANSIT route t
  end.

Definition valid_hub_time (hub t : Z) : Prop :=
  0 <= hub < N_HUBS /\ 0 <= t <= T.

Definition valid_route_time (route t : Z) : Prop :=
  0 <= route < M_RESTRICTED /\ 0 <= t <= T.

Definition valid_coord (c : coord) : Prop :=
  match c with
  | Arrival hub t | Departure hub t => valid_hub_time hub t
  | TransitSlot route t => valid_route_time route t
  end.

(** The macros are non-negative numbers. *)
Definition valid_macros : Prop :=
  0 <= N_HUBS /\ 0 <= T /\ 0 <= M_RESTRICTED.

(** The inverse of [node_id]: which coordinate a node id stands for. *)
Definition decode (n : Z) : option coord :=
  if n <? 0 then None
  else if n <? HUB_SPLIT_COUNT then
    let k := n / 2 in
    if Z.even n then Some (Arrival (k mod N_HUBS) (k / N_HUBS))
    else Some (Departure (k mod N_HUBS) (k / N_HUBS))
  else if n <? TOTAL_NODES then
    let k := n - TRANSIT_OFFSET in
    Some (TransitSlot (k mod M_RESTRICTED) (k / M_RESTRICTED))
  else None.

End Indexer.

(** ** The adjacency store *)

(** [typedef struct { int to; int cap; } Edge;] *)
Record Edge : Type := mkEdge { to : Z; cap : Z }.

(** [typedef struct { Edge edges[MAX_EDGES]; int count; } AdjList;]
    The array [edges] is a list of length [MAX_EDGES]. *)
Record AdjList : Type := mkAdjList { edges : list Edge; count : Z }.

(** [AdjList graph[TOTAL_NODES];]: a list of length [TOTAL_NODES]. *)
Abbreviation Graph := (list AdjList).

Definition set_to (v : Z) (e : Edge) : Edge := {| to := v; cap := cap e |}.
Definition set_cap (v : Z) (e : Edge) : Edge := {| to := to e; cap := v |}.

Section Store.
Context {m : Macros}.

(** The array has static storage: every cell and every count start at 0. *)
Definition graph_init : Graph :=
  replicate (Z.to_nat TOTAL_NODES)
    {| edges := replicate (Z.to_nat MAX_EDGES) {| to := 0; cap := 0 |};
       count := 0 |}.

(** The lvalue [graph[i]]; there is none outside the array. *)
Definition graph_at (g : Graph) (i : Z) : option AdjList :=
  if decide (0 <= i < TOTAL_NODES) then g !! Z.to_nat i else None.

(** The cell [edges[graph[from].count]] the two assignments of [add_edge]
    write to: the node and the index into its array. *)
Definition write_slot (g : Graph) (from : Z) : option (Z * Z) :=
  a ← graph_at g from; Some (from, count a).

Definition slot_in_bounds (s : Z * Z) : Prop :=
  0 <= s.1 < TOTAL_NODES /\ 0 <= s.2 < MAX_EDGES.

#[global] Instance slot_in_bounds_dec s : Decision (slot_in_bounds s).
Proof. unfold slot_in_bounds. apply _. Defined.

(** [void add_edge(int from, int to, int cap)].  The function has no
    bounds check and returns nothing.  [None] stands for undefined
    behaviour: [from] is not an index of [graph], or the count is not an
    index of [edges], so that the assignments write outside an array. *)
Definition add_edge (from to cap : Z) (g : Graph) : option Graph :=
  a ← graph_at g from;
  if decide (0 <= count a < MAX_EDGES) then
    let i := Z.to_nat (count a) in
    let es := alter (set_to to) i (edges a) in
    let es := alter (set_cap cap) i es in
    Some (<[Z.to_nat from := {| edges := es; count := count a + 1 |}]> g)
  else None.

(** The edges of a node as [print_graph] reads them: the cells
    [edges[0]], ..., [edges[count - 1]] in this order. *)
Definition edges_of (g : Graph) (n : Z) : list Edge :=
  match graph_at g n with
  | Some a => take (Z.to_nat (count a)) (edges a)
  | None => []
  end.

(** The out-degree of a node: its [count]. *)
Definition out_degree (g : Graph) (n : Z) : Z :=
  match graph_at g n with
  | Some a => count a
  | None => 0
  end.

(** All the edges of the graph, source first, in the order [print_graph]
    lists them: by node id, then by position. *)
Definition all_edges (g : Graph) : list (Z * Edge) :=
  i ← seqZ 0 TOTAL_NODES; (λ e, (i, e)) <$> edges_of g i.

(** The edges that enter a node. *)
Definition edges_into (g : Graph) (n : Z) : list (Z * Edge) :=
  filter (λ fe, to fe.2 = n) (all_edges g).

(** ** The builder *)

(** [for (int t = lo; t < hi; t++) body]: the body runs for
    [lo], ..., [hi - 1] and undefined behaviour ends the run. *)
Definition for_range (lo hi : Z) (body : Z → Graph → option Graph)
    (g : Graph) : option Graph :=
  foldl (λ acc t, acc ≫= body t) (Some g) (seqZ lo (hi - lo)).

(** 1) Node split edges (hub capacity = 1): [t <= T] is [t < T + 1]. *)
Definition split_edges (g : Graph) : option Graph :=
  for_range 0 (T + 1) (λ t,
    for_range 0 N_HUBS (λ u,
      add_edge (IN u t) (OUT u t) 1)) g.

(** 2) Wait edges (allowed only at hub 0 and 2). *)
Definition wait_edges (g : Graph) : option Graph :=
  for_range 0 T (λ t g,
    g ← add_edge (OUT 0 t) (IN 0 (t + 1)) 100 g;
    add_edge (OUT 2 t) (IN 2 (t + 1)) 100 g) g.

(** 3) Restricted edge 0 -> 1: [t <= T-2] is [t < T - 2 + 1]. *)
Definition restricted_edges (g : Graph) : option Graph :=
  let eid := 0 in
  for_range 0 (T - 2 + 1) (λ t g,
    g ← add_edge (OUT 0 t) (TRANSIT eid (t + 1)) 1 g;
    add_edge (TRANSIT eid (t + 1)) (IN 1 (t + 2)) 100 g) g.

(** 4) Normal edge 1 -> 2. *)
Definition normal_edges (g : Graph) : option Graph :=
  for_range 0 T (λ t, add_edge (OUT 1 t) (IN 2 (t + 1)) 1) g.

(** [void build_example()] *)
Definition build_example (g : Graph) : option Graph :=
  g ← split_edges g;
  g ← wait_edges g;
  g ← restricted_edges g;
  normal_edges g.

End Store.

(** ** Well-formed stores *)

Section Shape.
Context {m : Macros}.

(** The shape of the C object: [TOTAL_NODES] lists, each with an array of
    [MAX_EDGES] cells and a count between 0 and [MAX_EDGES]. *)
Definition wf_adj (a : AdjList) : Prop :=
  length (edges a) = Z.to_nat MAX_EDGES /\ 0 <= count a <= MAX_EDGES.

Definition wf_graph (g : Graph) : Prop :=
  length g = Z.to_nat TOTAL_NODES /\ Forall wf_adj g.

#[global] Instance wf_adj_dec a : Decision (wf_adj a).
Proof. unfold wf_adj. apply _. Defined.

#[global] Instance wf_graph_dec g : Decision (wf_graph g).
Proof. unfold wf_graph. apply _. Defined.

(** The macros the builder is written for: its body names the hubs 0, 1
    and 2 and the route 0, so there are at least three hubs, and at least
    one transit row as soon as the restricted loop runs. *)
Definition builder_macros : Prop :=
  3 <= N_HUBS /\ 0 <= T /\ 0 <= M_RESTRICTED /\ (2 <= T -> 1 <= M_RESTRICTED).

End Shape.

(** The macros with other values. *)
Definition macros_with (h t r : Z) : Macros :=
  {| N_HUBS := h; T := t; M_RESTRICTED := r |}.

(** The graph [build_example] leaves in the store, when run on the
    initial store with the macros of the file. *)
Definition reference_graph : Graph :=
  Eval vm_compute in
    default [] (@build_example reference (@graph_init reference)).

(** A store whose node 0 already holds [MAX_EDGES] edges. *)
Definition full_node_graph : option Graph :=
  foldl (λ acc _, acc ≫= @add_edge reference 0 1 1)
    (Some (@graph_init reference)) (seq 0 (Z.to_nat MAX_EDGES)).

(** ** The emission order of the specification

    The four steps as the specification words them, over a configuration;
    they are compared with the loops of [build_example] in
    [build_example_run] and [emitted_spec]. *)

(** A call [add_edge(from, to, cap)]: the source and the edge. *)
Definition call : Type := Z * Edge.

(** The configuration of the graph assembler, with the field names of
    the specification; [build_example] has these values written into its
    body. *)
Record Config : Type := {
  hub_capacity : Z;
  waitable_hubs : list Z;
  wait_capacity : Z;
  restricted_routes : list (Z * Z);
  transit_capacity : Z;
  direct_edge_capacity : Z;
  unrestricted_routes : list (Z * Z)
}.

(** The reference configuration: restricted route (0,1), waitable hubs
    0 and 2, unrestricted route (1,2), capacities 1, 100, 100 and 1. *)
Definition reference_config : Config :=
  {| hub_capacity := 1;
     waitable_hubs := [0; 2];
     wait_capacity := 100;
     restricted_routes := [(0, 1)];
     transit_capacity := 100;
     direct_edge_capacity := 1;
     unrestricted_routes := [(1, 2)] |}.

Section Emission.
Context {m : Macros}.

(** Step 1: for every [t] in [0..=T] and every [hub] in [0..H]. *)
Definition spec_split (cfg : Config) : list call :=
  t ← seqZ 0 (T + 1); hub ← seqZ 0 N_HUBS;
  [(IN hub t, mkEdge (OUT hub t) (hub_capacity cfg))].

(** Step 2: for every [t] in [0..T] and every [hub] in [waitable_hubs]. *)
Definition spec_wait (cfg : Config) : list call :=
  t ← seqZ 0 T; hub ← waitable_hubs cfg;
  [(OUT hub t, mkEdge (IN hub (t + 1)) (wait_capacity cfg))].

(** Step 3: for each restricted route [i] and every [t] in [0..=(T-2)],
    the edge into the transit slot and then the edge out of it. *)
Definition spec_route (cfg : Config) (i : nat) (od : Z * Z) : list call :=
  t ← seqZ 0 (T - 2 + 1);
  [(OUT od.1 t,
      mkEdge (TRANSIT (Z.of_nat i) (t + 1)) (direct_edge_capacity cfg));
   (TRANSIT (Z.of_nat i) (t + 1),
      mkEdge (IN od.2 (t + 2)) (transit_capacity cfg))].

Definition spec_transit (cfg : Config) : list call :=
  mjoin (imap (spec_route cfg) (restricted_routes cfg)).

(** Step 4: for every [t] in [0..T] and every unrestricted pair. *)
Definition spec_unrestricted (cfg : Config) : list call :=
  t ← seqZ 0 T; od ← unrestricted_routes cfg;
  [(OUT od.1 t, mkEdge (IN od.2 (t + 1)) (direct_edge_capacity cfg))].

(** The four steps in the order of the specification. *)
Definition spec_edges (cfg : Config) : list call :=
  spec_split cfg ++ spec_wait cfg ++ spec_transit cfg
    ++ spec_unrestricted cfg.

(** Performing a sequence of calls, first to last. *)
Definition run_from (acc : option Graph) (cs : list call) : option Graph :=
  foldl (λ acc c, acc ≫= add_edge c.1 (to c.2) (cap c.2)) acc cs.

Definition run (cs : list call) (g : Graph) : option Graph :=
  run_from (Some g) cs.

(** The edges a sequence of calls gives to one node, in call order. *)
Definition outgoing (n : Z) (cs : list call) : list Edge :=
  snd <$> filter (λ c, c.1 = n) cs.

(** *** The calls of [build_example], loop by loop *)

Definition split_calls : list call :=
  t ← seqZ 0 (T + 1); u ← seqZ 0 N_HUBS; [(IN u t, mkEdge (OUT u t) 1)].

Definition wait_calls : list call :=
  t ← seqZ 0 T;
  [(OUT 0 t, mkEdge (IN 0 (t + 1)) 100); (OUT 2 t, mkEdge (IN 2 (t + 1)) 100)].

Definition restricted_calls : list call :=
  t ← seqZ 0 (T - 2 + 1);
  [(OUT 0 t, mkEdge (TRANSIT 0 (t + 1)) 1);
   (TRANSIT 0 (t + 1), mkEdge (IN 1 (t + 2)) 100)].

Definition normal_calls : list call :=
  t ← seqZ 0 T; [(OUT 1 t, mkEdge (IN 2 (t + 1)) 1)].

Definition emitted : list call :=
  split_calls ++ wait_calls ++ restricted_calls ++ normal_calls.

(** The list each node ends up with, by its coordinate: the table that
    [outgoing_node] proves of the calls of [build_example]. *)
Definition adjacency (c : coord) : list Edge :=
  match c with
  | Arrival u t => [mkEdge (OUT u t) 1]
  | Departure u t =>
      (if decide ((u = 0 \/ u = 2) /\ t < T)
       then [mkEdge (IN u (t + 1)) 100] else []) ++
      (if decide (u = 0 /\ t <= T - 2)
       then [mkEdge (TRANSIT 0 (t + 1)) 1] else []) ++
      (if decide (u = 1 /\ t < T)
       then [mkEdge (IN 2 (t + 1)) 1] else [])
  | TransitSlot e s =>
      if decide (e = 0 /\ 1 <= s <= T - 1)
      then [mkEdge (IN 1 (s + 1)) 100] else []
  end.

(** *** The kinds of edges, by the coordinates of their end points

    The specification names four shapes of edges; an edge of the graph is
    sorted by decoding its two ends. *)

Inductive edge_kind : Type :=
  | CapacitySplit   (* arrival (hub,t) -> departure (hub,t) *)
  | WaitEdge        (* departure (hub,t) -> arrival (hub,t+1) *)
  | TransitRoute    (* departure (_,t) -> transit (_,t+1) -> arrival (_,t+2) *)
  | Unrestricted    (* departure (o,t) -> arrival (d,t+1), o <> d *)
  | Unclassified.

#[global] Instance edge_kind_eq_dec : EqDecision edge_kind.
Proof. solve_decision. Defined.

Definition kind_of (c : call) : edge_kind :=
  match decode c.1, decode (to c.2) with
  | Some (Arrival u t), Some (Departure u' t') =>
      if bool_decide (u' = u /\ t' = t) then CapacitySplit else Unclassified
  | Some (Departure u t), Some (Arrival u' t') =>
      if bool_decide (t' = t + 1)
      then (if bool_decide (u' = u) then WaitEdge else Unrestricted)
      else Unclassified
  | Some (Departure _ t), Some (TransitSlot _ t') =>
      if bool_decide (t' = t + 1) then TransitRoute else Unclassified
  | Some (TransitSlot _ t), Some (Arrival _ t') =>
      if bool_decide (t' = t + 1) then TransitRoute else Unclassified
  | _, _ => Unclassified
  end.

(** How many edges of a kind a graph holds. *)
Definition count_kind (k : edge_kind) (g : Graph) : nat :=
  length (filter (λ c, kind_of c = k) (all_edges g)).

(** The times of the transit slots at the two ends of an edge. *)
Definition transit_time (n : Z) : list Z :=
  match decode n with
  | Some (TransitSlot _ t) => [t]
  | _ => []
  end.

Definition transit_times (c : call) : list Z :=
  transit_time c.1 ++ transit_time (to c.2).

End Emission.

(** ** Printing and the entry point *)

(** The character the escape [\n] stands for. *)
Definition newline : string := String "010"%char "".

(** The text of [printf("Node %d:\n", i)]; [%d] prints an [int] in
    decimal, with a minus sign when it is negative. *)
Definition node_line (i : Z) : string :=
  "Node " +:+ pretty i +:+ ":" +:+ newline.

(** The text of [printf("   -> %d (cap=%d)\n", to, cap)]. *)
Definition edge_line (e : Edge) : string :=
  "   -> " +:+ pretty (to e) +:+ " (cap=" +:+ pretty (cap e) +:+ ")"
    +:+ newline.

(** The rvalue [a.edges[j]]; reading outside the array is undefined. *)
Definition edge_at (a : AdjList) (j : Z) : option Edge :=
  if decide (0 <= j < MAX_EDGES) then edges a !! Z.to_nat j else None.

(** A [for] loop that prints: the texts of the iterations [lo], ...,
    [hi - 1], one after the other; undefined behaviour ends the run. *)
Definition for_print (lo hi : Z) (body : Z → option (list string)) :
    option (list string) :=
  foldl (λ acc j, out ← acc; o ← body j; Some (out ++ o)) (Some [])
    (seqZ lo (hi - lo)).

(** What was written to the standard output, as one text. *)
Definition text (out : list string) : string :=
  foldr String.app "" out.

Section Print.
Context {m : Macros}.

(** The body of the outer loop of [print_graph] for node [i]: nothing
    when the count is 0 ([continue]), else the line of the node and one
    line for each of [edges[0]], ..., [edges[count - 1]]. *)
Definition print_node (g : Graph) (i : Z) : option (list string) :=
  a ← graph_at g i;
  if decide (count a = 0) then Some []
  else
    ls ← for_print 0 (count a) (λ j, e ← edge_at a j; Some [edge_line e]);
    Some (node_line i :: ls).

(** [void print_graph()]: the texts of its [printf] calls, in order. *)
Definition print_graph (g : Graph) : option (list string) :=
  for_print 0 TOTAL_NODES (print_node g).

(** [int main()]: the texts printed and the value returned. *)
Definition main : option (list string * Z) :=
  g ← build_example graph_init;
  out ← print_graph g;
  Some (out, 0).

(** [build_example] called [k] times in a row on the initial store. *)
Definition rebuild (k : nat) : option Graph :=
  Nat.iter k (λ acc, acc ≫= build_example) (Some graph_init).

(** The lines of one node with the edges [es]: none for no edge. *)
Definition node_listing (i : Z) (es : list Edge) : list string :=
  match es with
  | [] => []
  | _ => node_line i :: (edge_line <$> es)
  end.

(** A walk along edges: from [n] to the first node of [ns], from there to
    the second, and so on. *)
Fixpoint walk (g : Graph) (n : Z) (ns : list Z) : Prop :=
  match ns with
  | [] => True
  | n' :: ns' => (exists e, e ∈ edges_of g n /\ to e = n') /\ walk g n' ns'
  end.

(** The place of a node in time: arrival at [t], then departure at [t],
    then the transit slot of [t + 1], then arrival at [t + 1]. *)
Definition time_rank (n : Z) : Z :=
  match decode n with
  | Some (Arrival _ t) => 3 * t
  | Some (Departure _ t) => 3 * t + 1
  | Some (TransitSlot _ s) => 3 * s - 1
  | None => 0
  end.

End Print.

(** The lines the program prints with the macros of the file, without
    their final newline. *)
Definition reference_output : list string :=
  ["Node 0:"; "   -> 1 (cap=1)";
   "Node 1:"; "   -> 6 (cap=100)"; "   -> 25 (cap=1)";
   "Node 2:"; "   -> 3 (cap=1)";
   "Node 3:"; "   -> 10 (cap=1)";
   "Node 4:"; "   -> 5 (cap=1)";
   "Node 5:"; "   -> 10 (cap=100)";
   "Node 6:"; "   -> 7 (cap=1)";
   "Node 7:"; "   -> 12 (cap=100)"; "   -> 26 (cap=1)";
   "Node 8:"; "   -> 9 (cap=1)";
   "Node 9:"; "   -> 16 (cap=1)";
   "Node 10:"; "   -> 11 (cap=1)";
   "Node 11:"; "   -> 16 (cap=100)";
   "Node 12:"; "   -> 13 (cap=1)";
   "Node 13:"; "   -> 18 (cap=100)";
   "Node 14:"; "   -> 15 (cap=1)";
   "Node 15:"; "   -> 22 (cap=1)";
   "Node 16:"; "   -> 17 (cap=1)";
   "Node 17:"; "   -> 22 (cap=100)";
   "Node 18:"; "   -> 19 (cap=1)";
   "Node 20:"; "   -> 21 (cap=1)";
   "Node 22:"; "   -> 23 (cap=1)";
   "Node 25:"; "   -> 14 (cap=100)";
   "Node 26:"; "   -> 20 (cap=100)"].

(** ** Arithmetic of the layout *)

Section IndexerFacts.
Context {m : Macros}.

Lemma total_nodes_eq :
  TOTAL_NODES = 2 * N_HUBS * (T + 1) + M_RESTRICTED * (T + 1).
Proof.
  unfold TOTAL_NODES, HUB_SPLIT_COUNT, TRANSIT_COUNT, HUB_TIME_COUNT. ring.
Qed.

Lemma hub_time_range u t :
  valid_hub_time u t -> 0 <= hub_time u t < HUB_TIME_COUNT.
Proof.
  unfold valid_hub_time, hub_time, HUB_TIME_COUNT. intros [Hu Ht]. nia.
Qed.

Lemma hub_time_inj u t u' t' :
  0 <= u < N_HUBS -> 0 <= u' < N_HUBS ->
  hub_time u t = hub_time u' t' -> u = u' /\ t = t'.
Proof.
  unfold hub_time. intros Hu Hu' E.
  assert (t = t') by nia. subst t'. split; [lia | reflexivity].
Qed.

Lemma IN_range u t :
  valid_hub_time u t -> 0 <= IN u t < HUB_SPLIT_COUNT.
Proof.
  intros Hv. apply hub_time_range in Hv. unfold IN, HUB_SPLIT_COUNT. lia.
Qed.

Lemma OUT_range u t :
  valid_hub_time u t -> 0 <= OUT u t < HUB_SPLIT_COUNT.
Proof.
  intros Hv. apply hub_time_range in Hv. unfold OUT, HUB_SPLIT_COUNT. lia.
Qed.

Lemma TRANSIT_range e t :
  valid_route_time e t -> TRANSIT_OFFSET <= TRANSIT e t < TOTAL_NODES.
Proof.
  unfold valid_route_time, TRANSIT, TOTAL_NODES, TRANSIT_OFFSET, TRANSIT_COUNT.
  intros [He Ht]. nia.
Qed.

Lemma TRANSIT_inj e t e' t' :
  0 <= e < M_RESTRICTED -> 0 <= e' < M_RESTRICTED ->
  TRANSIT e t = TRANSIT e' t' -> e = e' /\ t = t'.
Proof.
  unfold TRANSIT. intros He He' E.
  assert (t = t') by nia. subst t'. split; [lia | reflexivity].
Qed.

Lemma node_id_range c :
  valid_macros -> valid_coord c -> 0 <= node_id c < TOTAL_NODES.
Proof.
  intros (HN & HT & HR).
  destruct c as [u t|u t|e t]; simpl; intros Hv.
  - pose proof (IN_range u t Hv).
    unfold TOTAL_NODES, TRANSIT_COUNT in *. nia.
  - pose proof (OUT_range u t Hv).
    unfold TOTAL_NODES, TRANSIT_COUNT in *. nia.
  - pose proof (TRANSIT_range e t Hv).
    unfold TRANSIT_OFFSET, HUB_SPLIT_COUNT, HUB_TIME_COUNT in *. nia.
Qed.

Lemma node_id_inj c c' :
  valid_coord c -> valid_coord c' -> node_id c = node_id c' -> c = c'.
Proof.
  destruct c as [u t|u t|e t], c' as [u' t'|u' t'|e' t']; simpl;
    intros Hv Hv' E.
  - unfold IN in E. destruct Hv, Hv'.
    destruct (hub_time_inj u t u' t') as [-> ->]; auto; lia.
  - unfold IN, OUT in E. lia.
  - pose proof (IN_range _ _ Hv). pose proof (TRANSIT_range _ _ Hv').
    unfold TRANSIT_OFFSET in *. lia.
  - unfold IN, OUT in E. lia.
  - unfold OUT in E. destruct Hv, Hv'.
    destruct (hub_time_inj u t u' t') as [-> ->]; auto; lia.
  - pose proof (OUT_range _ _ Hv). pose proof (TRANSIT_range _ _ Hv').
    unfold TRANSIT_OFFSET in *. lia.
  - pose proof (IN_range _ _ Hv'). pose proof (TRANSIT_range _ _ Hv).
    unfold TRANSIT_OFFSET in *. lia.
  - pose proof (OUT_range _ _ Hv'). pose proof (TRANSIT_range _ _ Hv).
    unfold TRANSIT_OFFSET in *. lia.
  - destruct Hv, Hv'.
    destruct (TRANSIT_inj e t e' t') as [-> ->]; auto.
Qed.

(** On valid coordinates every intermediate value of the helpers lies
    between 0 and [TOTAL_NODES]: no [int] computation overflows when
    [TOTAL_NODES] fits an [int]. *)
Lemma hub_ids_fit_int u t :
  valid_macros -> TOTAL_NODES <= INT_MAX -> valid_hub_time u t ->
  0 <= t * N_HUBS <= INT_MAX /\ 0 <= hub_time u t <= INT_MAX /\
  0 <= IN u t <= INT_MAX /\ 0 <= 2 * hub_time u t <= INT_MAX /\
  0 <= OUT u t <= INT_MAX.
Proof.
  intros Hm Hmax Hv.
  pose proof (node_id_range (Departure u t) Hm Hv) as Hr. simpl in Hr.
  destruct Hv as [Hu Ht]. unfold IN, OUT, hub_time in *. nia.
Qed.

Lemma transit_ids_fit_int e t :
  valid_macros -> TOTAL_NODES <= INT_MAX -> valid_route_time e t ->
  0 <= TRANSIT_OFFSET <= INT_MAX /\ 0 <= t * M_RESTRICTED <= INT_MAX /\
  0 <= TRANSIT_OFFSET + t * M_RESTRICTED <= INT_MAX /\
  0 <= TRANSIT e t <= INT_MAX.
Proof.
  intros Hm Hmax Hv.
  pose proof (node_id_range (TransitSlot e t) Hm Hv) as Hr. simpl in Hr.
  destruct Hm as (HN & HT & HR). destruct Hv as [He Ht].
  unfold TRANSIT, TRANSIT_OFFSET, HUB_SPLIT_COUNT, HUB_TIME_COUNT in *. nia.
Qed.

End IndexerFacts.

(** ** Decoding node ids *)

Section DecodeFacts.
Context {m : Macros}.

Lemma half_even k : (2 * k) / 2 = k /\ Z.even (2 * k) = true.
Proof.
  split.
  - rewrite Z.mul_comm. apply Z.div_mul. lia.
  - rewrite Z.even_mul. reflexivity.
Qed.

Lemma half_odd k : (2 * k + 1) / 2 = k /\ Z.even (2 * k + 1) = false.
Proof.
  split.
  - symmetry. apply (Z.div_unique _ _ _ 1); lia.
  - rewrite Z.even_add, Z.even_mul. reflexivity.
Qed.

Lemma hub_time_div_mod u t :
  0 <= u < N_HUBS ->
  hub_time u t mod N_HUBS = u /\ hub_time u t / N_HUBS = t.
Proof.
  intros Hu. unfold hub_time. split.
  - symmetry. apply (Z.mod_unique _ _ t); lia.
  - symmetry. apply (Z.div_unique _ _ _ u); lia.
Qed.

Lemma decode_node_id c :
  valid_macros -> valid_coord c -> decode (node_id c) = Some c.
Proof.
  intros Hm Hv. pose proof (node_id_range c Hm Hv) as Hr.
  destruct c as [u t|u t|e t]; simpl in *; unfold decode.
  - pose proof (IN_range u t Hv) as Hs.
    rewrite (proj2 (Z.ltb_ge _ _)), (proj2 (Z.ltb_lt _ _)) by lia.
    unfold IN. destruct (half_even (hub_time u t)) as [-> ->].
    destruct (hub_time_div_mod u t) as [-> ->]; [apply Hv|done].
  - pose proof (OUT_range u t Hv) as Hs.
    rewrite (proj2 (Z.ltb_ge _ _)), (proj2 (Z.ltb_lt _ _)) by lia.
    unfold OUT. destruct (half_odd (hub_time u t)) as [-> ->].
    destruct (hub_time_div_mod u t) as [-> ->]; [apply Hv|done].
  - pose proof (TRANSIT_range e t Hv) as Hs. unfold TRANSIT_OFFSET in Hs.
    rewrite (proj2 (Z.ltb_ge _ 0)), (proj2 (Z.ltb_ge _ HUB_SPLIT_COUNT)),
      (proj2 (Z.ltb_lt _ _)) by lia.
    destruct Hv as [He Ht]. unfold TRANSIT.
    replace (TRANSIT_OFFSET + t * M_RESTRICTED + e - TRANSIT_OFFSET)
      with (t * M_RESTRICTED + e) by lia.
    f_equal. f_equal.
    + symmetry. apply (Z.mod_unique _ _ t); lia.
    + symmetry. apply (Z.div_unique _ _ _ e); lia.
Qed.

Lemma decode_Some n c :
  valid_macros -> decode n = Some c -> valid_coord c /\ node_id c = n.
Proof.
  intros (HN & HT & HR). unfold decode.
  destruct (Z.ltb_spec n 0) as [|Hn0]; [done|].
  destruct (Z.ltb_spec n HUB_SPLIT_COUNT) as [Hs|Hs].
  - assert (0 < N_HUBS) as HN'.
    { unfold HUB_SPLIT_COUNT, HUB_TIME_COUNT in Hs. nia. }
    assert (0 <= n / 2 < HUB_TIME_COUNT) as Hk.
    { unfold HUB_SPLIT_COUNT in Hs. split.
      - apply Z.div_pos; lia.
      - apply Z.div_lt_upper_bound; lia. }
    assert (valid_hub_time ((n / 2) mod N_HUBS) (n / 2 / N_HUBS)) as Hv.
    { split; [by apply Z.mod_pos_bound|]. split.
      - apply Z.div_pos; lia.
      - apply Z.lt_succ_r. apply Z.div_lt_upper_bound; [done|].
        unfold HUB_TIME_COUNT in Hk. lia. }
    assert (hub_time ((n / 2) mod N_HUBS) (n / 2 / N_HUBS) = n / 2) as Hht.
    { unfold hub_time. pose proof (Z.div_mod (n / 2) N_HUBS). lia. }
    destruct (Z.even n) eqn:Hev; intros [= <-]; (split; [done|]); simpl.
    + unfold IN. rewrite Hht. apply Z.even_spec in Hev as [k ->].
      by rewrite (proj1 (half_even k)).
    + unfold OUT. rewrite Hht.
      assert (Z.odd n = true) as [k ->]%Z.odd_spec.
      { by rewrite <- Z.negb_even, Hev. }
      by rewrite (proj1 (half_odd k)).
  - destruct (Z.ltb_spec n TOTAL_NODES) as [Ht|]; [|done].
    intros [= <-]. unfold TOTAL_NODES, TRANSIT_COUNT in Ht.
    assert (0 < M_RESTRICTED) as HR' by nia.
    set (k := n - TRANSIT_OFFSET).
    assert (0 <= k < (T + 1) * M_RESTRICTED) as Hk.
    { unfold k, TRANSIT_OFFSET. lia. }
    split; simpl.
    + split; [by apply Z.mod_pos_bound|]. split.
      * apply Z.div_pos; lia.
      * apply Z.lt_succ_r. apply Z.div_lt_upper_bound; [done|]. lia.
    + unfold TRANSIT. pose proof (Z.div_mod k M_RESTRICTED). unfold k in *.
      lia.
Qed.

Lemma decode_total n :
  valid_macros -> 0 <= n < TOTAL_NODES -> is_Some (decode n).
Proof.
  intros _ [Hn0 Hn]. unfold decode.
  destruct (Z.ltb_spec n 0); [lia|].
  destruct (Z.ltb_spec n HUB_SPLIT_COUNT).
  - destruct (Z.even n); by eexists.
  - destruct (Z.ltb_spec n TOTAL_NODES); [by eexists|lia].
Qed.

End DecodeFacts.



(** ** The store: what one call does *)

Section StoreFacts.
Context {m : Macros}.

Lemma graph_at_wf g n :
  wf_graph g -> 0 <= n < TOTAL_NODES ->
  exists a, graph_at g n = Some a /\ wf_adj a.
Proof.
  intros [Hlen Hall] Hn. unfold graph_at. rewrite decide_True by done.
  destruct (lookup_lt_is_Some_2 g (Z.to_nat n)) as [a Ha]; [lia|].
  exists a. split; [done|].
  rewrite Forall_lookup in Hall. by apply (Hall (Z.to_nat n)).
Qed.

Lemma graph_at_outside g n :
  ~ 0 <= n < TOTAL_NODES -> graph_at g n = None.
Proof. intros Hn. unfold graph_at. by rewrite decide_False. Qed.

Lemma out_degree_length g n :
  wf_graph g -> out_degree g n = Z.of_nat (length (edges_of g n)).
Proof.
  intros Hwf. unfold out_degree, edges_of.
  destruct (decide (0 <= n < TOTAL_NODES)) as [Hn|Hn].
  - destruct (graph_at_wf g n Hwf Hn) as (a & -> & Hlen & Hc).
    rewrite length_take. lia.
  - by rewrite graph_at_outside.
Qed.

Lemma wf_graph_init :
  wf_graph graph_init.
Proof.
  split.
  - unfold graph_init. by rewrite length_replicate.
  - apply Forall_replicate. split; cbn [edges count].
    + by rewrite length_replicate.
    + unfold MAX_EDGES. lia.
Qed.

Lemma edges_of_init n :
  edges_of graph_init n = [].
Proof.
  unfold edges_of, graph_at, graph_init. case_decide; [|done].
  rewrite lookup_replicate_2 by lia. done.
Qed.

(** A call on a list that is not full appends the edge to that list and
    leaves every other list as it was. *)
Lemma add_edge_ok g from v c :
  wf_graph g -> 0 <= from < TOTAL_NODES -> out_degree g from < MAX_EDGES ->
  exists g',
    add_edge from v c g = Some g' /\ wf_graph g' /\
    edges_of g' from = edges_of g from ++ [mkEdge v c] /\
    (forall n, n <> from -> edges_of g' n = edges_of g n).
Proof.
  intros Hwf Hfrom Hdeg.
  destruct (graph_at_wf g from Hwf Hfrom) as (a & Ha & Hlen & Hc).
  unfold out_degree in Hdeg. rewrite Ha in Hdeg.
  unfold add_edge. rewrite Ha. simpl. rewrite decide_True by lia.
  eexists. split; [reflexivity|].
  destruct Hwf as [Hg Hall].
  assert (Hi : (Z.to_nat from < length g)%nat) by lia.
  split; [|split].
  - split; [by rewrite length_insert|].
    apply Forall_insert; [done|]. split; simpl.
    + by rewrite !length_alter.
    + lia.
  - unfold edges_of at 1, graph_at. rewrite decide_True by done.
    rewrite list_lookup_insert_eq by done. simpl.
    replace (Z.to_nat (count a + 1)) with (S (Z.to_nat (count a))) by lia.
    destruct (lookup_lt_is_Some_2 (edges a) (Z.to_nat (count a)))
      as [e0 He0]; [lia|].
    erewrite take_S_r; last first.
    { rewrite !list_lookup_alter_eq, He0. reflexivity. }
    rewrite !take_alter_ge by lia.
    unfold edges_of. rewrite Ha. reflexivity.
  - intros n Hn. unfold edges_of, graph_at. case_decide; [|done].
    rewrite list_lookup_insert_ne by lia. done.
Qed.

(** The cell written is inside the arrays exactly when the call is
    defined. *)
Lemma add_edge_defined g from v c :
  is_Some (add_edge from v c g) <->
  exists s, write_slot g from = Some s /\ slot_in_bounds s.
Proof.
  unfold add_edge, write_slot, slot_in_bounds, graph_at.
  destruct (decide (0 <= from < TOTAL_NODES)) as [Hf|Hf]; simpl.
  - destruct (g !! Z.to_nat from) as [a|]; simpl.
    + case_decide; split.
      * intros _. eexists. split; [reflexivity|]. simpl. lia.
      * intros _. by eexists.
      * intros [? [=]].
      * intros (s & [= <-] & ? & ?). simpl in *. lia.
    + split; [intros [? [=]]|intros (? & [=] & _)].
  - split; [intros [? [=]]|intros (? & [=] & _)].
Qed.

End StoreFacts.

(** ** Loops as sequences of calls *)

Section LoopFacts.
Context {m : Macros}.

Lemma run_from_None cs :
  run_from None cs = None.
Proof. induction cs as [|c cs IH]; [done|]. exact IH. Qed.

Lemma run_from_app acc cs1 cs2 :
  run_from acc (cs1 ++ cs2) = run_from (run_from acc cs1) cs2.
Proof. unfold run_from. apply foldl_app. Qed.

Lemma run_app cs1 cs2 g :
  run (cs1 ++ cs2) g = run cs1 g ≫= run cs2.
Proof.
  unfold run. rewrite run_from_app.
  destruct (run_from (Some g) cs1); [done|]. apply run_from_None.
Qed.

Lemma run_from_bind acc cs :
  run_from acc cs = acc ≫= run cs.
Proof. destruct acc; [done|]. apply run_from_None. Qed.

(** A loop whose body performs the calls [f t] performs the calls of
    all its iterations, in the order of the counter. *)
Lemma for_range_run lo hi body (f : Z → list call) g :
  (forall t g', body t g' = run (f t) g') ->
  for_range lo hi body g = run (seqZ lo (hi - lo) ≫= f) g.
Proof.
  intros Hbody. unfold for_range, run.
  generalize (seqZ lo (hi - lo)) (Some g). clear g.
  intros l. induction l as [|t l IH]; intros acc; [done|].
  change ((t :: l) ≫= f) with (f t ++ (l ≫= f)).
  rewrite run_from_app. simpl. rewrite IH. f_equal.
  rewrite run_from_bind. destruct acc as [g|]; [|done]. apply Hbody.
Qed.

End LoopFacts.

(** ** The builder performs the calls of the specification *)

Section Refinement.
Context {m : Macros}.

Lemma split_edges_run g :
  split_edges g = run split_calls g.
Proof.
  unfold split_edges, split_calls.
  erewrite for_range_run; [by rewrite Z.sub_0_r|].
  intros t g'. simpl.
  erewrite for_range_run; [by rewrite Z.sub_0_r|]. done.
Qed.

Lemma wait_edges_run g :
  wait_edges g = run wait_calls g.
Proof.
  unfold wait_edges, wait_calls.
  erewrite for_range_run; [by rewrite Z.sub_0_r|]. done.
Qed.

Lemma restricted_edges_run g :
  restricted_edges g = run restricted_calls g.
Proof.
  unfold restricted_edges, restricted_calls.
  erewrite for_range_run; [by rewrite Z.sub_0_r|]. done.
Qed.

Lemma normal_edges_run g :
  normal_edges g = run normal_calls g.
Proof.
  unfold normal_edges, normal_calls.
  erewrite for_range_run; [by rewrite Z.sub_0_r|]. done.
Qed.

Lemma build_example_run g :
  build_example g = run emitted g.
Proof.
  unfold build_example, emitted.
  rewrite run_app, split_edges_run.
  destruct (run split_calls g) as [g1|]; [simpl|done].
  rewrite run_app, wait_edges_run.
  destruct (run wait_calls g1) as [g2|]; [simpl|done].
  rewrite run_app, restricted_edges_run.
  destruct (run restricted_calls g2) as [g3|]; [simpl|done].
  apply normal_edges_run.
Qed.

(** The calls of the loops are the four steps of the specification at
    the reference configuration. *)
Lemma emitted_spec :
  emitted = spec_edges reference_config.
Proof.
  unfold emitted, spec_edges.
  replace (spec_transit reference_config) with restricted_calls;
    [reflexivity|].
  unfold spec_transit, spec_route, restricted_calls. simpl.
  by rewrite app_nil_r.
Qed.

End Refinement.

(** ** Running a sequence of calls *)

Section RunFacts.
Context {m : Macros}.

Lemma outgoing_nil n :
  outgoing n [] = [].
Proof. reflexivity. Qed.

Lemma outgoing_cons n from e cs :
  outgoing n ((from, e) :: cs) =
  (if decide (from = n) then [e] else []) ++ outgoing n cs.
Proof.
  unfold outgoing. rewrite filter_cons. simpl.
  by destruct (decide (from = n)).
Qed.

Lemma outgoing_app n cs1 cs2 :
  outgoing n (cs1 ++ cs2) = outgoing n cs1 ++ outgoing n cs2.
Proof. unfold outgoing. by rewrite filter_app, fmap_app. Qed.

Lemma outgoing_bind {A} n (l : list A) (f : A → list call) :
  outgoing n (l ≫= f) = l ≫= (λ t, outgoing n (f t)).
Proof.
  induction l as [|t l IH]; [done|].
  change ((t :: l) ≫= f) with (f t ++ (l ≫= f)).
  rewrite outgoing_app, IH. done.
Qed.

Lemma elem_of_outgoing n e cs :
  e ∈ outgoing n cs <-> (n, e) ∈ cs.
Proof.
  unfold outgoing. rewrite list_elem_of_fmap. split.
  - intros ([from e'] & -> & Hin). apply list_elem_of_filter in Hin.
    simpl in Hin. destruct Hin as [-> Hin]. done.
  - intros Hin. exists (n, e). split; [done|].
    apply list_elem_of_filter. done.
Qed.

Lemma bind_all_nil {A B} (l : list A) (h : A → list B) :
  (forall t, t ∈ l -> h t = []) -> l ≫= h = [].
Proof.
  induction l as [|t l IH]; intros Hnil; [done|].
  change ((t :: l) ≫= h) with (h t ++ (l ≫= h)).
  rewrite Hnil by left. rewrite IH; [done|].
  intros t' Ht'. apply Hnil. by right.
Qed.

Lemma bind_only_at {A B} (l : list A) (h : A → list B) t0 :
  NoDup l -> t0 ∈ l -> (forall t, t ∈ l -> t <> t0 -> h t = []) ->
  l ≫= h = h t0.
Proof.
  induction l as [|t l IH]; intros Hnd Hin Hnil.
  - by apply elem_of_nil in Hin.
  - change ((t :: l) ≫= h) with (h t ++ (l ≫= h)).
    apply NoDup_cons in Hnd as [Hnotin Hnd].
    apply elem_of_cons in Hin as [->|Hin].
    + rewrite bind_all_nil; [by rewrite app_nil_r|].
      intros t' Ht'. apply Hnil; [by right|]. by intros ->.
    + rewrite Hnil; [|by left|by intros ->]. simpl.
      apply IH; [done..|]. intros t' Ht' Hne. apply Hnil; [by right|done].
Qed.

(** A sequence of calls whose sources are nodes, and which fills no list
    beyond [MAX_EDGES], runs to the end and appends to every list the
    edges of that node, in call order. *)
Lemma run_ok cs : forall g,
  wf_graph g ->
  Forall (λ c : call, 0 <= c.1 < TOTAL_NODES) cs ->
  (forall n,
     Z.of_nat (length (edges_of g n) + length (outgoing n cs)) <= MAX_EDGES) ->
  exists g',
    run cs g = Some g' /\ wf_graph g' /\
    forall n, edges_of g' n = edges_of g n ++ outgoing n cs.
Proof.
  induction cs as [|[from e] cs IH]; intros g Hwf Hsrc Hroom.
  - exists g. split; [done|]. split; [done|].
    intros n. by rewrite app_nil_r.
  - apply Forall_cons in Hsrc as [Hfrom Hsrc]. simpl in Hfrom.
    destruct (add_edge_ok g from (to e) (cap e) Hwf Hfrom)
      as (g1 & Hadd & Hwf1 & Hsame & Hother).
    { rewrite out_degree_length by done. specialize (Hroom from).
      rewrite outgoing_cons, decide_True in Hroom by done.
      simpl in Hroom. lia. }
    destruct (IH g1 Hwf1 Hsrc) as (g' & Hrun & Hwf' & Hedges).
    { intros n. specialize (Hroom n). rewrite outgoing_cons in Hroom.
      destruct (decide (from = n)) as [->|Hne].
      - rewrite Hsame. rewrite !length_app in *. simpl in *. lia.
      - rewrite Hother by done. simpl in Hroom. done. }
    exists g'. split; [|split; [done|]].
    + unfold run in *. simpl. rewrite Hadd. done.
    + intros n. rewrite Hedges, outgoing_cons.
      destruct (decide (from = n)) as [->|Hne].
      * rewrite Hsame, <- app_assoc. by destruct e.
      * rewrite Hother by done. done.
Qed.

End RunFacts.

(** ** The adjacency list of every node *)

(** Equations between node ids, settled by the injectivity of the
    helpers and the ranges of the families. *)
Ltac ids :=
  unfold IN, OUT in *;
  repeat match goal with
  | H : 2 * hub_time ?u ?t = 2 * hub_time ?u' ?t' |- _ =>
      assert (hub_time u t = hub_time u' t') by lia; clear H
  | H : 2 * hub_time ?u ?t + 1 = 2 * hub_time ?u' ?t' + 1 |- _ =>
      assert (hub_time u t = hub_time u' t') by lia; clear H
  | H : hub_time _ _ = hub_time _ _ |- _ =>
      apply hub_time_inj in H; [|lia|lia]
  | H : TRANSIT _ _ = TRANSIT _ _ |- _ =>
      apply TRANSIT_inj in H; [|lia|lia]
  end;
  try lia;
  unfold TRANSIT, TRANSIT_OFFSET, HUB_SPLIT_COUNT, HUB_TIME_COUNT,
    hub_time in *;
  nia.

(** No iteration of the loop has source [n]. *)
Ltac phase_none :=
  rewrite outgoing_bind; apply bind_all_nil;
  intros ? ?%elem_of_seqZ;
  rewrite ?outgoing_cons, ?outgoing_nil;
  repeat case_decide; try done; exfalso; ids.

(** Only iteration [t0] of the loop has source [n]. *)
Ltac phase_at t0 :=
  rewrite outgoing_bind, (bind_only_at _ _ t0);
  [ rewrite ?outgoing_cons, ?outgoing_nil;
    repeat case_decide; try done; try (exfalso; ids)
  | apply NoDup_seqZ
  | apply elem_of_seqZ; lia
  | intros ? ?%elem_of_seqZ ?;
    rewrite ?outgoing_cons, ?outgoing_nil;
    repeat case_decide; try done; exfalso; ids ].

Section TableFacts.
Context {m : Macros}.

Lemma outgoing_arrival u t :
  builder_macros -> valid_hub_time u t ->
  outgoing (IN u t) emitted = adjacency (Arrival u t).
Proof.
  intros (HN & HT & HR & HTR) [Hu Ht]. unfold emitted.
  rewrite !outgoing_app.
  assert (outgoing (IN u t) split_calls = [mkEdge (OUT u t) 1]) as ->.
  { unfold split_calls. rewrite outgoing_bind, (bind_only_at _ _ t).
    - phase_at u.
    - apply NoDup_seqZ.
    - apply elem_of_seqZ; lia.
    - intros t' Ht'%elem_of_seqZ Hne. phase_none. }
  assert (outgoing (IN u t) wait_calls = []) as ->.
  { unfold wait_calls. phase_none. }
  assert (outgoing (IN u t) restricted_calls = []) as ->.
  { unfold restricted_calls. phase_none. }
  assert (outgoing (IN u t) normal_calls = []) as ->.
  { unfold normal_calls. phase_none. }
  reflexivity.
Qed.

Lemma outgoing_departure u t :
  builder_macros -> valid_hub_time u t ->
  outgoing (OUT u t) emitted = adjacency (Departure u t).
Proof.
  intros (HN & HT & HR & HTR) [Hu Ht]. unfold emitted, adjacency.
  rewrite !outgoing_app.
  assert (outgoing (OUT u t) split_calls = []) as ->.
  { unfold split_calls. rewrite outgoing_bind. apply bind_all_nil.
    intros t' Ht'%elem_of_seqZ. phase_none. }
  simpl. f_equal; [|f_equal].
  - unfold wait_calls. case_decide as Hw.
    + destruct Hw as [[-> | ->] Hlt]; phase_at t.
    + phase_none.
  - unfold restricted_calls. case_decide as Hw.
    + destruct Hw as [-> Hlt]. phase_at t.
    + phase_none.
  - unfold normal_calls. case_decide as Hw.
    + destruct Hw as [-> Hlt]. phase_at t.
    + phase_none.
Qed.

Lemma outgoing_transit e s :
  builder_macros -> valid_route_time e s ->
  outgoing (TRANSIT e s) emitted = adjacency (TransitSlot e s).
Proof.
  intros (HN & HT & HR & HTR) [He Hs]. unfold emitted, adjacency.
  rewrite !outgoing_app.
  assert (outgoing (TRANSIT e s) split_calls = []) as ->.
  { unfold split_calls. rewrite outgoing_bind. apply bind_all_nil.
    intros t' Ht'%elem_of_seqZ. phase_none. }
  assert (outgoing (TRANSIT e s) wait_calls = []) as ->.
  { unfold wait_calls. phase_none. }
  assert (outgoing (TRANSIT e s) normal_calls = []) as ->.
  { unfold normal_calls. phase_none. }
  rewrite app_nil_r. simpl.
  unfold restricted_calls. case_decide as Hw.
  - destruct Hw as [-> Hs']. phase_at (s - 1).
    by replace (s - 1 + 2) with (s + 1) by lia.
  - phase_none.
Qed.

End TableFacts.

(** ** The build runs to the end *)

Section BuildFacts.
Context {m : Macros}.

Lemma builder_macros_valid :
  builder_macros -> valid_macros.
Proof. unfold builder_macros, valid_macros. lia. Qed.

Lemma elem_of_split_calls c :
  c ∈ split_calls <->
  exists t u, 0 <= t <= T /\ 0 <= u < N_HUBS /\
    c = (IN u t, mkEdge (OUT u t) 1).
Proof.
  unfold split_calls. rewrite list_elem_of_bind. split.
  - intros (t & Hin%list_elem_of_bind & Ht%elem_of_seqZ).
    destruct Hin as (u & ->%list_elem_of_singleton & Hu%elem_of_seqZ).
    exists t, u. repeat split; lia.
  - intros (t & u & Ht & Hu & ->). exists t. split.
    + apply list_elem_of_bind. exists u. split; [by left|].
      apply elem_of_seqZ. lia.
    + apply elem_of_seqZ. lia.
Qed.

Lemma elem_of_wait_calls c :
  c ∈ wait_calls <->
  exists t, 0 <= t < T /\
    (c = (OUT 0 t, mkEdge (IN 0 (t + 1)) 100) \/
     c = (OUT 2 t, mkEdge (IN 2 (t + 1)) 100)).
Proof.
  unfold wait_calls. rewrite list_elem_of_bind.
  setoid_rewrite elem_of_seqZ. setoid_rewrite elem_of_cons.
  setoid_rewrite list_elem_of_singleton. split.
  - intros (t & Hc & Ht). exists t. split; [lia|done].
  - intros (t & Ht & Hc). exists t. split; [done|lia].
Qed.

Lemma elem_of_restricted_calls c :
  c ∈ restricted_calls <->
  exists t, 0 <= t <= T - 2 /\
    (c = (OUT 0 t, mkEdge (TRANSIT 0 (t + 1)) 1) \/
     c = (TRANSIT 0 (t + 1), mkEdge (IN 1 (t + 2)) 100)).
Proof.
  unfold restricted_calls. rewrite list_elem_of_bind.
  setoid_rewrite elem_of_seqZ. setoid_rewrite elem_of_cons.
  setoid_rewrite list_elem_of_singleton. split.
  - intros (t & Hc & Ht). exists t. split; [lia|done].
  - intros (t & Ht & Hc). exists t. split; [done|lia].
Qed.

Lemma elem_of_normal_calls c :
  c ∈ normal_calls <->
  exists t, 0 <= t < T /\ c = (OUT 1 t, mkEdge (IN 2 (t + 1)) 1).
Proof.
  unfold normal_calls. rewrite list_elem_of_bind.
  setoid_rewrite elem_of_seqZ. setoid_rewrite list_elem_of_singleton. split.
  - intros (t & Hc & Ht). exists t. split; [lia|done].
  - intros (t & Ht & Hc). exists t. split; [done|lia].
Qed.

Lemma elem_of_emitted c :
  c ∈ emitted <->
  c ∈ split_calls \/ c ∈ wait_calls \/ c ∈ restricted_calls \/
  c ∈ normal_calls.
Proof. unfold emitted. by rewrite !elem_of_app. Qed.

(** Every call of the builder names a node as its source and a node as
    its destination. *)
Lemma emitted_in_range c :
  builder_macros -> c ∈ emitted ->
  0 <= c.1 < TOTAL_NODES /\ 0 <= to c.2 < TOTAL_NODES.
Proof.
  intros Hb Hc. pose proof (builder_macros_valid Hb) as Hm.
  destruct Hb as (HN & HT & HR & HTR).
  assert (forall u t, 0 <= u < N_HUBS -> 0 <= t <= T ->
            0 <= IN u t < TOTAL_NODES) as HIN.
  { intros u t Hu Ht. by apply (node_id_range (Arrival u t)). }
  assert (forall u t, 0 <= u < N_HUBS -> 0 <= t <= T ->
            0 <= OUT u t < TOTAL_NODES) as HOUT.
  { intros u t Hu Ht. by apply (node_id_range (Departure u t)). }
  assert (forall t, 2 <= T -> 0 <= t <= T ->
            0 <= TRANSIT 0 t < TOTAL_NODES) as HTRANSIT.
  { intros t HT2 Ht. apply (node_id_range (TransitSlot 0 t)); [done|].
    split; lia. }
  apply elem_of_emitted in Hc as [Hc|[Hc|[Hc|Hc]]].
  - apply elem_of_split_calls in Hc as (t & u & Ht & Hu & ->). simpl.
    split; [apply HIN|apply HOUT]; lia.
  - apply elem_of_wait_calls in Hc as (t & Ht & [-> | ->]); simpl;
      (split; [apply HOUT|apply HIN]; lia).
  - apply elem_of_restricted_calls in Hc as (t & Ht & [-> | ->]); simpl.
    + split; [apply HOUT|apply HTRANSIT]; lia.
    + split; [apply HTRANSIT|apply HIN]; lia.
  - apply elem_of_normal_calls in Hc as (t & Ht & ->). simpl.
    split; [apply HOUT|apply HIN]; lia.
Qed.

Lemma adjacency_length c :
  (length (adjacency c) <= 2)%nat.
Proof.
  destruct c as [u t|u t|e s]; simpl; repeat case_decide; simpl; lia.
Qed.

(** The edges the calls give to a node: those of its coordinate. *)
Lemma outgoing_node n :
  builder_macros -> 0 <= n < TOTAL_NODES ->
  exists c, decode n = Some c /\ valid_coord c /\
    outgoing n emitted = adjacency c.
Proof.
  intros Hb Hn. pose proof (builder_macros_valid Hb) as Hm.
  destruct (decode_total n Hm Hn) as [c Hc].
  destruct (decode_Some n c Hm Hc) as [Hv <-].
  exists c. split; [done|]. split; [done|].
  destruct c as [u t|u t|e s]; simpl.
  - by apply outgoing_arrival.
  - by apply outgoing_departure.
  - by apply outgoing_transit.
Qed.

Lemma outgoing_outside n :
  builder_macros -> ~ 0 <= n < TOTAL_NODES -> outgoing n emitted = [].
Proof.
  intros Hb Hn. destruct (outgoing n emitted) as [|e l] eqn:E; [done|].
  assert ((n, e) ∈ emitted) as Hin.
  { apply elem_of_outgoing. rewrite E. by left. }
  apply (emitted_in_range _ Hb) in Hin. simpl in Hin. lia.
Qed.

Lemma outgoing_length n :
  builder_macros -> (length (outgoing n emitted) <= 2)%nat.
Proof.
  intros Hb. destruct (decide (0 <= n < TOTAL_NODES)) as [Hn|Hn].
  - destruct (outgoing_node n Hb Hn) as (c & _ & _ & ->).
    apply adjacency_length.
  - rewrite outgoing_outside by done. simpl. lia.
Qed.

(** The build of the empty store runs to the end, and every node then
    holds the edges the calls gave it, in call order. *)
Lemma build_example_ok :
  builder_macros ->
  exists g, build_example graph_init = Some g /\ wf_graph g /\
    forall n, edges_of g n = outgoing n emitted.
Proof.
  intros Hb.
  destruct (run_ok emitted graph_init) as (g & Hrun & Hwf & Hedges).
  - apply wf_graph_init.
  - apply Forall_forall. intros c Hc. by apply emitted_in_range.
  - intros n. rewrite edges_of_init. simpl.
    pose proof (outgoing_length n Hb). unfold MAX_EDGES. lia.
  - exists g. rewrite build_example_run. split; [done|]. split; [done|].
    intros n. by rewrite Hedges, edges_of_init.
Qed.

Lemma elem_of_all_edges g n e :
  (n, e) ∈ all_edges g <-> 0 <= n < TOTAL_NODES /\ e ∈ edges_of g n.
Proof.
  unfold all_edges. rewrite list_elem_of_bind. split.
  - intros (i & (e' & Heq & He)%list_elem_of_fmap & Hi%elem_of_seqZ).
    injection Heq as -> ->. split; [lia|done].
  - intros [Hn He]. exists n. split.
    + apply list_elem_of_fmap. by exists e.
    + apply elem_of_seqZ. lia.
Qed.

(** The edges of the built graph are the calls of the builder. *)
Lemma all_edges_emitted g c :
  builder_macros -> (forall n, edges_of g n = outgoing n emitted) ->
  c ∈ all_edges g <-> c ∈ emitted.
Proof.
  intros Hb Hedges. destruct c as [n e].
  rewrite elem_of_all_edges, Hedges, elem_of_outgoing. split.
  - by intros [_ ?].
  - intros Hin. split; [|done]. by apply (emitted_in_range (n, e)).
Qed.

End BuildFacts.

(** ** The kind of every emitted edge *)

Section KindFacts.
Context {m : Macros}.

Lemma kind_of_ends from e c c' :
  valid_macros -> valid_coord c -> valid_coord c' ->
  from = node_id c -> to e = node_id c' ->
  kind_of (from, e) =
  match c, c' with
  | Arrival u t, Departure u' t' =>
      if bool_decide (u' = u /\ t' = t) then CapacitySplit else Unclassified
  | Departure u t, Arrival u' t' =>
      if bool_decide (t' = t + 1)
      then (if bool_decide (u' = u) then WaitEdge else Unrestricted)
      else Unclassified
  | Departure _ t, TransitSlot _ t' =>
      if bool_decide (t' = t + 1) then TransitRoute else Unclassified
  | TransitSlot _ t, Arrival _ t' =>
      if bool_decide (t' = t + 1) then TransitRoute else Unclassified
  | _, _ => Unclassified
  end.
Proof.
  intros Hm Hc Hc' -> Hto. unfold kind_of. simpl. rewrite Hto.
  by rewrite !decode_node_id.
Qed.

Lemma kind_of_split c :
  builder_macros -> c ∈ split_calls -> kind_of c = CapacitySplit.
Proof.
  intros Hb (t & u & Ht & Hu & ->)%elem_of_split_calls.
  pose proof (builder_macros_valid Hb) as Hm.
  rewrite (kind_of_ends _ _ (Arrival u t) (Departure u t)); try done.
  by rewrite bool_decide_eq_true_2.
Qed.

Lemma kind_of_wait c :
  builder_macros -> c ∈ wait_calls -> kind_of c = WaitEdge.
Proof.
  intros Hb (t & Ht & Hc)%elem_of_wait_calls.
  pose proof (builder_macros_valid Hb) as Hm.
  destruct Hb as (HN & HT & HR & HTR).
  destruct Hc as [-> | ->].
  - rewrite (kind_of_ends _ _ (Departure 0 t) (Arrival 0 (t + 1)));
      try done; try (split; lia).
    by rewrite !bool_decide_eq_true_2.
  - rewrite (kind_of_ends _ _ (Departure 2 t) (Arrival 2 (t + 1)));
      try done; try (split; lia).
    by rewrite !bool_decide_eq_true_2.
Qed.

Lemma kind_of_restricted c :
  builder_macros -> c ∈ restricted_calls -> kind_of c = TransitRoute.
Proof.
  intros Hb (t & Ht & Hc)%elem_of_restricted_calls.
  pose proof (builder_macros_valid Hb) as Hm.
  destruct Hb as (HN & HT & HR & HTR).
  destruct Hc as [-> | ->].
  - rewrite (kind_of_ends _ _ (Departure 0 t) (TransitSlot 0 (t + 1)));
      try done; try (split; lia).
    by rewrite bool_decide_eq_true_2.
  - rewrite (kind_of_ends _ _ (TransitSlot 0 (t + 1)) (Arrival 1 (t + 2)));
      try done; try (split; lia).
    by rewrite bool_decide_eq_true_2 by lia.
Qed.

Lemma kind_of_normal c :
  builder_macros -> c ∈ normal_calls -> kind_of c = Unrestricted.
Proof.
  intros Hb (t & Ht & ->)%elem_of_normal_calls.
  pose proof (builder_macros_valid Hb) as Hm.
  destruct Hb as (HN & HT & HR & HTR).
  rewrite (kind_of_ends _ _ (Departure 1 t) (Arrival 2 (t + 1)));
    try done; try (split; lia).
  by rewrite bool_decide_eq_true_2, bool_decide_eq_false_2.
Qed.

(** Counting by membership. *)
Lemma count_kind_zero k g :
  (forall c, c ∈ all_edges g -> kind_of c <> k) -> count_kind k g = 0%nat.
Proof.
  intros Hnone. unfold count_kind.
  destruct (filter _ _) as [|c l] eqn:E; [done|].
  assert (c ∈ filter (λ c, kind_of c = k) (all_edges g)) as Hin.
  { rewrite E. by left. }
  apply list_elem_of_filter in Hin as [Hk Hin]. by apply Hnone in Hin.
Qed.

Lemma count_kind_nonzero k g c :
  c ∈ all_edges g -> kind_of c = k -> count_kind k g <> 0%nat.
Proof.
  intros Hin Hk. unfold count_kind.
  assert (c ∈ filter (λ c, kind_of c = k) (all_edges g)) as Hf.
  { by apply list_elem_of_filter. }
  destruct (filter _ _); [by apply elem_of_nil in Hf|done].
Qed.

End KindFacts.

(** ** Empty loops and the kinds of the built edges *)

Section StepFacts.
Context {m : Macros}.

Lemma spec_transit_reference :
  spec_transit reference_config = restricted_calls.
Proof.
  unfold spec_transit, spec_route, restricted_calls. simpl.
  by rewrite app_nil_r.
Qed.

Lemma for_range_empty lo hi body g :
  hi <= lo -> for_range lo hi body g = Some g.
Proof. intros Hle. unfold for_range. by rewrite seqZ_nil by lia. Qed.

End StepFacts.

Section BoundaryFacts.
Context {m : Macros}.

(** The kinds of the edges of the built graph, by the step that made
    them. *)
Lemma built_edge_kind g c :
  builder_macros -> (forall n, edges_of g n = outgoing n emitted) ->
  c ∈ all_edges g ->
  (c ∈ split_calls /\ kind_of c = CapacitySplit) \/
  (c ∈ wait_calls /\ kind_of c = WaitEdge) \/
  (c ∈ restricted_calls /\ kind_of c = TransitRoute) \/
  (c ∈ normal_calls /\ kind_of c = Unrestricted).
Proof.
  intros Hb Hedges Hc%(all_edges_emitted g _ Hb Hedges).
  apply elem_of_emitted in Hc as [Hc|[Hc|[Hc|Hc]]].
  - left. split; [done|]. by apply kind_of_split.
  - right; left. split; [done|]. by apply kind_of_wait.
  - right; right; left. split; [done|]. by apply kind_of_restricted.
  - right; right; right. split; [done|]. by apply kind_of_normal.
Qed.

Lemma wait_calls_none :
  T <= 0 -> wait_calls = [].
Proof. intros HT. unfold wait_calls. by rewrite seqZ_nil. Qed.

Lemma restricted_calls_none :
  T < 2 -> restricted_calls = [].
Proof. intros HT. unfold restricted_calls. by rewrite seqZ_nil by lia. Qed.

Lemma no_wait_edges g :
  builder_macros -> (forall n, edges_of g n = outgoing n emitted) ->
  T <= 0 -> count_kind WaitEdge g = 0%nat.
Proof.
  intros Hb Hedges HT. apply count_kind_zero. intros c Hc.
  destruct (built_edge_kind g c Hb Hedges Hc)
    as [[_ ->]|[[Hin _]|[[_ ->]|[_ ->]]]]; try done.
  rewrite wait_calls_none in Hin by done. by apply elem_of_nil in Hin.
Qed.

Lemma no_transit_edges g :
  builder_macros -> (forall n, edges_of g n = outgoing n emitted) ->
  T < 2 -> count_kind TransitRoute g = 0%nat.
Proof.
  intros Hb Hedges HT. apply count_kind_zero. intros c Hc.
  destruct (built_edge_kind g c Hb Hedges Hc)
    as [[_ ->]|[[_ ->]|[[Hin _]|[_ ->]]]]; try done.
  rewrite restricted_calls_none in Hin by done.
  by apply elem_of_nil in Hin.
Qed.

Lemma some_wait_edge g :
  builder_macros -> (forall n, edges_of g n = outgoing n emitted) ->
  1 <= T -> count_kind WaitEdge g <> 0%nat.
Proof.
  intros Hb Hedges HT.
  assert ((OUT 0 0, mkEdge (IN 0 (0 + 1)) 100) ∈ wait_calls) as Hin.
  { apply elem_of_wait_calls. exists 0. split; [lia|by left]. }
  apply (count_kind_nonzero _ _ (OUT 0 0, mkEdge (IN 0 (0 + 1)) 100)).
  - apply (all_edges_emitted g _ Hb Hedges), elem_of_emitted. auto.
  - by apply kind_of_wait.
Qed.

Lemma some_unrestricted_edge g :
  builder_macros -> (forall n, edges_of g n = outgoing n emitted) ->
  1 <= T -> count_kind Unrestricted g <> 0%nat.
Proof.
  intros Hb Hedges HT.
  assert ((OUT 1 0, mkEdge (IN 2 (0 + 1)) 1) ∈ normal_calls) as Hin.
  { apply elem_of_normal_calls. exists 0. split; [lia|done]. }
  apply (count_kind_nonzero _ _ (OUT 1 0, mkEdge (IN 2 (0 + 1)) 1)).
  - apply (all_edges_emitted g _ Hb Hedges), elem_of_emitted. auto.
  - by apply kind_of_normal.
Qed.

End BoundaryFacts.

(** * The node indexer *)

Section IndexerClaims.
Context {m : Macros}.

(** C1, as amended: with non-negative macros, [hub_time] is injective on
    the valid (hub, time) pairs; the three node-id functions [IN]
    (arrival), [OUT] (departure) and [TRANSIT] have the stated formulas,
    each is injective on its valid coordinates and no two of them share a
    value (two valid coordinates with the same id are the same
    coordinate of the same family); every valid coordinate has its id in
    [0, TOTAL_NODES), every id of that range is the id of a valid
    coordinate, and [TOTAL_NODES = 2*H*(T+1) + R*(T+1)].  The
    intermediate index [hub_time] is not part of the bijection. *)
Theorem node_id_bijection :
  valid_macros ->
  (forall u t, hub_time u t = t * N_HUBS + u) /\
  (forall u t, IN u t = 2 * hub_time u t) /\
  (forall u t, OUT u t = 2 * hub_time u t + 1) /\
  (forall r t, TRANSIT r t = 2 * N_HUBS * (T + 1) + t * M_RESTRICTED + r) /\
  TOTAL_NODES = 2 * N_HUBS * (T + 1) + M_RESTRICTED * (T + 1) /\
  (forall u t u' t', valid_hub_time u t -> valid_hub_time u' t' ->
     hub_time u t = hub_time u' t' -> u = u' /\ t = t') /\
  (forall c, valid_coord c -> 0 <= node_id c < TOTAL_NODES) /\
  (forall c c', valid_coord c -> valid_coord c' ->
     node_id c = node_id c' -> c = c') /\
  (forall n, 0 <= n < TOTAL_NODES ->
     exists c, valid_coord c /\ node_id c = n).
Proof.
  intros Hm. split_and!; try reflexivity.
  - intros r t.
    unfold TRANSIT, TRANSIT_OFFSET, HUB_SPLIT_COUNT, HUB_TIME_COUNT. ring.
  - apply total_nodes_eq.
  - intros u t u' t' [Hu _] [Hu' _]. by apply hub_time_inj.
  - intros c. by apply node_id_range.
  - apply node_id_inj.
  - intros n Hn. destruct (decode_total n Hm Hn) as [c Hc].
    exists c. by apply decode_Some.
Qed.

End IndexerClaims.

(** C1, witness: the macros of the file are non-negative, so every id
    below 28 is the id of a valid coordinate. *)
Lemma node_id_bijection_reference :
  @valid_macros reference /\
  (forall n, 0 <= n < @TOTAL_NODES reference ->
     exists c, @valid_coord reference c /\ @node_id reference c = n).
Proof.
  assert (@valid_macros reference) as Hm.
  { unfold valid_macros. simpl. lia. }
  split; [exact Hm|].
  apply (@node_id_bijection reference Hm).
Defined.

(** C1, as stated, fails: [hub_time] is one of the four functions and
    shares values with [IN]; on the valid pair (0,0) both give 0, so the
    four functions are not pairwise non-colliding. *)
Lemma hub_time_meets_arrival_id :
  ~ (forall u t u' t',
       @valid_hub_time reference u t -> @valid_hub_time reference u' t' ->
       @hub_time reference u t <> @IN reference u' t').
Proof.
  intros Hdisjoint.
  apply (Hdisjoint 0 0 0 0); unfold valid_hub_time; simpl; try lia.
  reflexivity.
Qed.

(** * The store *)

Section StoreClaims.
Context {m : Macros}.

(** C7, as amended: [add_edge] has no bounds check and no error result.
    On a well-formed store, for a source that is a node whose list holds
    fewer than [MAX_EDGES] edges, the call writes a cell inside the
    arrays, appends the edge at the end of the list of the source, adds
    one to its out-degree and leaves every other list unchanged: no edge
    is dropped. *)
Theorem add_edge_appends g from v c :
  wf_graph g -> 0 <= from < TOTAL_NODES -> out_degree g from < MAX_EDGES ->
  exists g',
    add_edge from v c g = Some g' /\ wf_graph g' /\
    (exists s, write_slot g from = Some s /\ slot_in_bounds s) /\
    edges_of g' from = edges_of g from ++ [mkEdge v c] /\
    out_degree g' from = out_degree g from + 1 /\
    (forall n, n <> from -> edges_of g' n = edges_of g n).
Proof.
  intros Hwf Hfrom Hdeg.
  destruct (add_edge_ok g from v c Hwf Hfrom Hdeg)
    as (g' & Hadd & Hwf' & Hsame & Hother).
  exists g'. split_and!; try done.
  - apply (add_edge_defined g from v c). by rewrite Hadd.
  - rewrite !out_degree_length, Hsame, length_app by done. simpl. lia.
Qed.

End StoreClaims.

(** C7, witness: the first call on the initial store of the file. *)
Lemma add_edge_appends_initial :
  @wf_graph reference (@graph_init reference) /\
  0 <= 0 < @TOTAL_NODES reference /\
  @out_degree reference (@graph_init reference) 0 < MAX_EDGES /\
  exists g',
    @add_edge reference 0 1 1 (@graph_init reference) = Some g' /\
    @edges_of reference g' 0 = [mkEdge 1 1].
Proof.
  assert (@wf_graph reference (@graph_init reference)) as Hwf.
  { apply (bool_decide_unpack _). vm_compute. exact I. }
  assert (0 <= 0 < @TOTAL_NODES reference) as Hfrom by (by vm_compute).
  assert (@out_degree reference (@graph_init reference) 0 < MAX_EDGES)
    as Hdeg by (by vm_compute).
  split; [exact Hwf|]. split; [exact Hfrom|]. split; [exact Hdeg|].
  destruct (@add_edge_appends reference _ 0 1 1 Hwf Hfrom Hdeg)
    as (g' & Hadd & _ & _ & Hedges & _).
  exists g'. split; [exact Hadd|]. exact Hedges.
Defined.

(** C7, as stated, fails: when node 0 already holds [MAX_EDGES] edges,
    the cell [add_edge] writes is [edges[128]] of an array of 128 cells,
    past the bound, and the function, of type [void], reports nothing;
    in the model the call is undefined behaviour. *)
Lemma add_edge_writes_past_bound :
  match full_node_graph with
  | Some g =>
      @wf_graph reference g /\
      @out_degree reference g 0 = MAX_EDGES /\
      @write_slot reference g 0 = Some (0, MAX_EDGES) /\
      ~ @slot_in_bounds reference (0, MAX_EDGES) /\
      @add_edge reference 0 1 1 g = None
  | None => False
  end.
Proof.
  destruct full_node_graph as [g|] eqn:Hfull;
    vm_compute in Hfull; [|discriminate Hfull].
  injection Hfull as <-.
  split; [apply (bool_decide_unpack _); vm_compute; exact I|].
  split; [vm_compute; reflexivity|].
  split; [vm_compute; reflexivity|].
  split; [|vm_compute; reflexivity].
  unfold slot_in_bounds. simpl. lia.
Qed.

(** * The steps of the builder *)

Section BuilderClaims.
Context {m : Macros}.

(** C3: the restricted route of the builder is route 0 with the pair
    (0,1) of the reference configuration.  For that route (i, origin,
    destination) the restricted step performs, for t = 0, ..., T-2 in
    turn, the call for the edge [OUT origin t -> TRANSIT i (t+1)] of
    capacity [direct_edge_capacity] and then the call for the edge
    [TRANSIT i (t+1) -> IN destination (t+2)] of capacity
    [transit_capacity].  In the built graph, for every t in 0..T-2, the
    first edge is there, the second is the only edge that leaves the
    transit slot, and the first is the only edge that enters it, so the
    route takes exactly two steps.  When T < 2 the step leaves the store
    as it is and the build still runs to the end. *)
Theorem restricted_route_edges :
  builder_macros ->
  exists g, build_example graph_init = Some g /\
    (forall g0, T < 2 -> restricted_edges g0 = Some g0) /\
    forall (i : nat) origin destination,
      restricted_routes reference_config !! i = Some (origin, destination) ->
      let direct t :=
        (OUT origin t,
         mkEdge (TRANSIT (Z.of_nat i) (t + 1))
           (direct_edge_capacity reference_config)) in
      let forced t :=
        (TRANSIT (Z.of_nat i) (t + 1),
         mkEdge (IN destination (t + 2))
           (transit_capacity reference_config)) in
      (forall g0, restricted_edges g0 =
         run (t ← seqZ 0 (T - 2 + 1); [direct t; forced t]) g0) /\
      forall t, 0 <= t <= T - 2 ->
        direct t ∈ all_edges g /\
        edges_of g (forced t).1 = [(forced t).2] /\
        (forall c, c ∈ all_edges g ->
           to c.2 = TRANSIT (Z.of_nat i) (t + 1) -> c = direct t).
Proof.
  intros Hb. destruct (build_example_ok Hb) as (g & Hg & Hwf & Hedges).
  exists g. split; [done|]. split.
  { intros g0 HT. apply for_range_empty. lia. }
  intros [|i] origin destination Hroute; [|done].
  injection Hroute as <- <-. simpl. split.
  { intros g0. apply restricted_edges_run. }
  intros t Ht. pose proof Hb as (HN & HT & HR & HTR). split_and!.
  - apply (all_edges_emitted g _ Hb Hedges), elem_of_emitted.
    right; right; left. apply elem_of_restricted_calls. exists t. auto.
  - rewrite Hedges, outgoing_transit by (done || (split; lia)).
    simpl. rewrite decide_True by lia.
    by replace (t + 1 + 1) with (t + 2) by lia.
  - intros c Hc%(all_edges_emitted g _ Hb Hedges) Hto.
    apply elem_of_emitted in Hc as [Hc|[Hc|[Hc|Hc]]].
    + apply elem_of_split_calls in Hc as (t' & u & Ht' & Hu & ->).
      simpl in Hto. exfalso. ids.
    + apply elem_of_wait_calls in Hc as (t' & Ht' & [-> | ->]);
        simpl in Hto; exfalso; ids.
    + apply elem_of_restricted_calls in Hc as (t' & Ht' & [-> | ->]);
        simpl in Hto.
      * apply TRANSIT_inj in Hto as [_ Heq]; [|lia|lia].
        by replace t' with t by lia.
      * exfalso. ids.
    + apply elem_of_normal_calls in Hc as (t' & Ht' & ->).
      simpl in Hto. exfalso. ids.
Qed.

(** C4: the builder performs its calls in the order of the
    specification: all capacity-split edges, then all wait edges, then
    all restricted-route transit edges, then all unrestricted edges.
    After the build of the initial store the list of every node holds
    exactly the edges of the calls with that source, in call order:
    nothing is reordered, merged or removed.  For [OUT 0 t] with
    0 <= t <= T-2 (t = 0, 1 in the reference) the list is the wait edge
    followed by the transit edge. *)
Theorem emission_order :
  builder_macros ->
  let cfg := reference_config in
  (forall g0, build_example g0 =
     run (spec_split cfg ++ spec_wait cfg ++ spec_transit cfg
            ++ spec_unrestricted cfg) g0) /\
  Forall (λ c, kind_of c = CapacitySplit) (spec_split cfg) /\
  Forall (λ c, kind_of c = WaitEdge) (spec_wait cfg) /\
  Forall (λ c, kind_of c = TransitRoute) (spec_transit cfg) /\
  Forall (λ c, kind_of c = Unrestricted) (spec_unrestricted cfg) /\
  exists g, build_example graph_init = Some g /\
    (forall n, edges_of g n =
       outgoing n (spec_split cfg ++ spec_wait cfg ++ spec_transit cfg
                     ++ spec_unrestricted cfg)) /\
    (forall t, 0 <= t <= T - 2 ->
       edges_of g (OUT 0 t) =
         [mkEdge (IN 0 (t + 1)) 100; mkEdge (TRANSIT 0 (t + 1)) 1]).
Proof.
  intros Hb cfg. fold (spec_edges cfg). unfold cfg.
  rewrite <- emitted_spec. split_and!.
  - apply build_example_run.
  - apply Forall_forall. intros c. by apply kind_of_split.
  - apply Forall_forall. intros c. by apply kind_of_wait.
  - rewrite spec_transit_reference. apply Forall_forall.
    intros c. by apply kind_of_restricted.
  - apply Forall_forall. intros c. by apply kind_of_normal.
  - destruct (build_example_ok Hb) as (g & Hg & Hwf & Hedges).
    exists g. split_and!; [done..|].
    intros t Ht. pose proof Hb as (HN & HT & HR & HTR).
    rewrite Hedges, outgoing_departure by (done || (split; lia)).
    unfold adjacency. rewrite !decide_True by lia.
    rewrite decide_False by lia. done.
Qed.

(** C5: in the built graph, for every t with 0 <= t < T and every
    waitable hub (0 and 2), exactly one edge goes from [OUT hub t] to
    [IN hub (t+1)], and its capacity is [wait_capacity]; for a hub of
    [0,H) that is not waitable (hub 1 in the reference) no edge goes from
    [OUT hub t] to [IN hub (t+1)], whatever t and the capacity. *)
Theorem wait_edges_exact :
  builder_macros ->
  exists g, build_example graph_init = Some g /\
    (forall hub t, hub ∈ waitable_hubs reference_config -> 0 <= t < T ->
       filter (λ e, to e = IN hub (t + 1)) (edges_of g (OUT hub t)) =
         [mkEdge (IN hub (t + 1)) (wait_capacity reference_config)]) /\
    (forall hub t c, 0 <= hub < N_HUBS ->
       hub ∉ waitable_hubs reference_config ->
       (OUT hub t, mkEdge (IN hub (t + 1)) c) ∉ all_edges g).
Proof.
  intros Hb. destruct (build_example_ok Hb) as (g & Hg & Hwf & Hedges).
  pose proof Hb as (HN & HT & HR & HTR).
  exists g. split_and!; [done|..].
  - intros hub t Hhub Ht.
    assert (hub = 0 \/ hub = 2) as Hcase.
    { simpl in Hhub. apply elem_of_cons in Hhub as [?|Hhub]; [by left|].
      apply list_elem_of_singleton in Hhub. by right. }
    rewrite Hedges, outgoing_departure by (done || (split; lia)).
    unfold adjacency, wait_capacity, reference_config.
    rewrite decide_True by lia.
    rewrite (decide_False (P := hub = 1 /\ t < T)) by lia.
    rewrite app_nil_r. cbn [app]. rewrite filter_cons_True by done.
    case_decide as Htr; simpl; [|done].
    rewrite filter_cons_False; [done|]. simpl. intros Heq.
    destruct Htr as [-> Htr]. ids.
  - intros hub t c Hhub Hnot Hin%(all_edges_emitted g _ Hb Hedges).
    assert (hub <> 0 /\ hub <> 2) as [Hne0 Hne2].
    { simpl in Hnot. split; intros ->; apply Hnot; [by left|].
      right. by left. }
    apply elem_of_emitted in Hin as [Hc|[Hc|[Hc|Hc]]].
    + apply elem_of_split_calls in Hc as (t' & u & Ht' & Hu & Heq).
      injection Heq as Hsrc Hdst _. ids.
    + apply elem_of_wait_calls in Hc as (t' & Ht' & [Heq | Heq]);
        injection Heq as Hsrc Hdst _; ids.
    + apply elem_of_restricted_calls in Hc as (t' & Ht' & [Heq | Heq]);
        injection Heq as Hsrc Hdst _; ids.
    + apply elem_of_normal_calls in Hc as (t' & Ht' & Heq).
      injection Heq as Hsrc Hdst _. ids.
Qed.

End BuilderClaims.

Lemma reference_builder_macros :
  @builder_macros reference.
Proof. unfold builder_macros. simpl. lia. Defined.

(** C3, witness: the macros of the file, route 0 = (0,1), t = 0. *)
Lemma restricted_route_edges_reference :
  @builder_macros reference /\
  exists g, @build_example reference (@graph_init reference) = Some g /\
    (@OUT reference 0 0, mkEdge (@TRANSIT reference 0 (0 + 1)) 1)
      ∈ @all_edges reference g /\
    @edges_of reference g (@TRANSIT reference 0 (0 + 1)) =
      [mkEdge (@IN reference 1 (0 + 2)) 100].
Proof.
  split; [exact reference_builder_macros|].
  destruct (@restricted_route_edges reference reference_builder_macros)
    as (g & Hg & _ & Hroute).
  destruct (Hroute 0%nat 0 1 eq_refl) as [_ Ht].
  destruct (Ht 0) as (Hin & Hout & _); [simpl; lia|].
  exists g. split; [exact Hg|]. split; [exact Hin|exact Hout].
Defined.

(** C4, witness: the macros of the file, the list of [OUT 0 0]. *)
Lemma emission_order_reference :
  @builder_macros reference /\
  exists g, @build_example reference (@graph_init reference) = Some g /\
    @edges_of reference g (@OUT reference 0 0) =
      [mkEdge (@IN reference 0 (0 + 1)) 100;
       mkEdge (@TRANSIT reference 0 (0 + 1)) 1].
Proof.
  split; [exact reference_builder_macros|].
  destruct (@emission_order reference reference_builder_macros)
    as (_ & _ & _ & _ & _ & g & Hg & _ & Hlist).
  exists g. split; [exact Hg|]. apply Hlist. simpl. lia.
Defined.

(** C5, witness: the macros of the file, hub 2 at t = 0. *)
Lemma wait_edges_exact_reference :
  @builder_macros reference /\
  exists g, @build_example reference (@graph_init reference) = Some g /\
    filter (λ e, to e = @IN reference 2 (0 + 1))
      (@edges_of reference g (@OUT reference 2 0)) =
      [mkEdge (@IN reference 2 (0 + 1)) 100].
Proof.
  split; [exact reference_builder_macros|].
  destruct (@wait_edges_exact reference reference_builder_macros)
    as (g & Hg & Hwait & _).
  exists g. split; [exact Hg|]. apply Hwait.
  - right. left.
  - simpl. lia.
Defined.

(** C8: with three hubs or more and any number R of restricted rows, the
    build with T = 0 runs to the end and its graph holds no wait edge
    and no transit edge (the two steps leave the store as it is); the
    build with T = 1 runs to the end and its graph holds no transit edge,
    at least one wait edge and at least one unrestricted edge. *)
Theorem horizon_boundaries h r :
  3 <= h -> 0 <= r ->
  (exists g,
     @build_example (macros_with h 0 r) (@graph_init (macros_with h 0 r))
       = Some g /\
     @count_kind (macros_with h 0 r) WaitEdge g = 0%nat /\
     @count_kind (macros_with h 0 r) TransitRoute g = 0%nat /\
     (forall g0, @wait_edges (macros_with h 0 r) g0 = Some g0) /\
     (forall g0, @restricted_edges (macros_with h 0 r) g0 = Some g0)) /\
  (exists g,
     @build_example (macros_with h 1 r) (@graph_init (macros_with h 1 r))
       = Some g /\
     @count_kind (macros_with h 1 r) TransitRoute g = 0%nat /\
     @count_kind (macros_with h 1 r) WaitEdge g <> 0%nat /\
     @count_kind (macros_with h 1 r) Unrestricted g <> 0%nat /\
     (forall g0, @restricted_edges (macros_with h 1 r) g0 = Some g0)).
Proof.
  intros Hh Hr. split.
  - assert (@builder_macros (macros_with h 0 r)) as Hb.
    { unfold builder_macros. simpl. lia. }
    destruct (@build_example_ok _ Hb) as (g & Hg & _ & Hedges).
    exists g. split_and!; [done|..].
    + by apply no_wait_edges.
    + by apply no_transit_edges.
    + intros g0. by apply for_range_empty.
    + intros g0. by apply for_range_empty.
  - assert (@builder_macros (macros_with h 1 r)) as Hb.
    { unfold builder_macros. simpl. lia. }
    destruct (@build_example_ok _ Hb) as (g & Hg & _ & Hedges).
    exists g. split_and!; [done|..].
    + by apply no_transit_edges.
    + by apply some_wait_edge.
    + by apply some_unrestricted_edge.
    + intros g0. by apply for_range_empty.
Qed.

(** C8, witness: three hubs and one restricted row. *)
Lemma horizon_boundaries_reference :
  3 <= 3 /\ 0 <= 1 /\
  (exists g,
     @build_example (macros_with 3 0 1) (@graph_init (macros_with 3 0 1))
       = Some g /\
     @count_kind (macros_with 3 0 1) WaitEdge g = 0%nat /\
     @count_kind (macros_with 3 0 1) TransitRoute g = 0%nat) /\
  (exists g,
     @build_example (macros_with 3 1 1) (@graph_init (macros_with 3 1 1))
       = Some g /\
     @count_kind (macros_with 3 1 1) TransitRoute g = 0%nat /\
     @count_kind (macros_with 3 1 1) WaitEdge g <> 0%nat /\
     @count_kind (macros_with 3 1 1) Unrestricted g <> 0%nat).
Proof.
  assert (3 <= 3) as H3 by lia. assert (0 <= 1) as H1 by lia.
  split; [exact H3|]. split; [exact H1|].
  destruct (horizon_boundaries 3 1 H3 H1)
    as [(g0 & Hg0 & Hw0 & Ht0 & _) (g1 & Hg1 & Ht1 & Hw1 & Hu1 & _)].
  split.
  - exists g0. auto.
  - exists g1. auto.
Defined.

(** * Configuration errors *)

Section ConfigClaims.
Context {m : Macros}.

(** C6, as amended: [build_example] reads no route configuration, checks
    nothing and has no error result; its restricted route is the fixed
    pair (0,1).  With macros the builder is written for (at least three
    hubs) both hubs of that route lie in [0,H), and the build of the
    initial store runs to the end, leaving in every list the edges of the
    calls. *)
Theorem fixed_route_in_range :
  builder_macros ->
  Forall (λ od : Z * Z, 0 <= od.1 < N_HUBS /\ 0 <= od.2 < N_HUBS)
    (restricted_routes reference_config) /\
  exists g, build_example graph_init = Some g /\
    forall n, edges_of g n = outgoing n (spec_edges reference_config).
Proof.
  intros Hb. split.
  - destruct Hb as (HN & _). repeat constructor; simpl; lia.
  - destruct (build_example_ok Hb) as (g & Hg & _ & Hedges).
    exists g. split; [done|]. intros n. by rewrite <- emitted_spec.
Qed.

End ConfigClaims.

(** C6, witness: the macros of the file. *)
Lemma fixed_route_in_range_reference :
  @builder_macros reference /\
  exists g, @build_example reference (@graph_init reference) = Some g.
Proof.
  assert (@builder_macros reference) as Hb.
  { unfold builder_macros. simpl. lia. }
  split; [exact Hb|].
  destruct (@fixed_route_in_range reference Hb) as (_ & g & Hg & _).
  exists g. exact Hg.
Defined.

(** C6, as stated, fails: with a single hub (H = 1) the restricted route
    (0,1) names hub 1 = H, outside [0,H), and [build_example] neither
    reports an error nor leaves the store alone: it runs to the end and
    the store then holds 17 edges. *)
Lemma out_of_range_route_is_built :
  ~ (0 <= 1 < @N_HUBS (macros_with 1 3 1)) /\
  (0, 1) ∈ restricted_routes reference_config /\
  match @build_example (macros_with 1 3 1) (@graph_init (macros_with 1 3 1))
  with
  | Some g =>
      g <> @graph_init (macros_with 1 3 1) /\
      length (@all_edges (macros_with 1 3 1) g) = 17%nat
  | None => False
  end.
Proof.
  split; [simpl; lia|]. split; [by left|].
  destruct (@build_example (macros_with 1 3 1) _) as [g|] eqn:Hval;
    vm_compute in Hval; [|discriminate Hval].
  injection Hval as <-.
  split; [|vm_compute; reflexivity].
  intros Heq. vm_compute in Heq. discriminate Heq.
Qed.

(** * The reference build *)

Lemma reference_build :
  @build_example reference (@graph_init reference) = Some reference_graph.
Proof. vm_compute. reflexivity. Qed.

(** The ids of the file: [IN(0,1)], [OUT(2,3)], [TRANSIT(0,1)] and the
    number of nodes. *)
Example reference_ids :
  @IN reference 0 1 = 6 /\ @OUT reference 2 3 = 23 /\
  @TRANSIT reference 0 1 = 25 /\ @TOTAL_NODES reference = 28.
Proof. by vm_compute. Qed.

(** What [print_graph] lists after [build_example]: node by node, each
    with its edges [-> to (cap)]. *)
Example reference_listing :
  @all_edges reference reference_graph =
  [(0, mkEdge 1 1); (1, mkEdge 6 100); (1, mkEdge 25 1); (2, mkEdge 3 1);
   (3, mkEdge 10 1); (4, mkEdge 5 1); (5, mkEdge 10 100); (6, mkEdge 7 1);
   (7, mkEdge 12 100); (7, mkEdge 26 1); (8, mkEdge 9 1); (9, mkEdge 16 1);
   (10, mkEdge 11 1); (11, mkEdge 16 100); (12, mkEdge 13 1);
   (13, mkEdge 18 100); (14, mkEdge 15 1); (15, mkEdge 22 1);
   (16, mkEdge 17 1); (17, mkEdge 22 100); (18, mkEdge 19 1);
   (20, mkEdge 21 1); (22, mkEdge 23 1); (25, mkEdge 14 100);
   (26, mkEdge 20 100)].
Proof. vm_compute. reflexivity. Qed.

(** C2: with H=3, T=3, R=1 the built graph holds exactly 12
    capacity-split edges, 6 wait edges, 4 transit-route edges and 3
    unrestricted edges, 25 edges in all and none of another shape; the
    four steps of the specification at the reference configuration
    (restricted route (0,1), waitable hubs 0 and 2, capacities 1, 100, 100
    and 1) are these calls, 12, 6, 4 and 3 of them. *)
Theorem reference_edge_counts :
  @build_example reference (@graph_init reference) = Some reference_graph /\
  (forall g, @build_example reference g =
             @run reference (@spec_edges reference reference_config) g) /\
  @count_kind reference CapacitySplit reference_graph = 12%nat /\
  @count_kind reference WaitEdge reference_graph = 6%nat /\
  @count_kind reference TransitRoute reference_graph = 4%nat /\
  @count_kind reference Unrestricted reference_graph = 3%nat /\
  @count_kind reference Unclassified reference_graph = 0%nat /\
  length (@all_edges reference reference_graph) = 25%nat /\
  length (@spec_split reference reference_config) = 12%nat /\
  length (@spec_wait reference reference_config) = 6%nat /\
  length (@spec_transit reference reference_config) = 4%nat /\
  length (@spec_unrestricted reference reference_config) = 3%nat.
Proof.
  split; [exact reference_build|].
  split.
  { intros g. rewrite <- emitted_spec. apply build_example_run. }
  split_and!; vm_compute; reflexivity.
Qed.

(** Decidable statements about the reference build, by evaluation. *)
Ltac by_evaluation :=
  apply (bool_decide_unpack _); vm_compute; exact I.

(** C9: in the reference build every [add_edge] call of [build_example]
    has its source and its destination in [0, TOTAL_NODES); the build
    runs without a write outside an array, ends with every out-degree
    at most 2, below [MAX_EDGES = 128], and the store then holds as many
    edges as there were calls: none is lost. *)
Theorem reference_build_in_bounds :
  (forall g, @build_example reference g =
             @run reference (@emitted reference) g) /\
  Forall (λ c : call, 0 <= c.1 < @TOTAL_NODES reference /\
                      0 <= to c.2 < @TOTAL_NODES reference)
    (@emitted reference) /\
  @build_example reference (@graph_init reference) = Some reference_graph /\
  (forall n, @out_degree reference reference_graph n <= 2) /\
  2 < MAX_EDGES /\ MAX_EDGES = 128 /\
  length (@all_edges reference reference_graph) =
    length (@emitted reference).
Proof.
  split; [apply @build_example_run|].
  split; [by_evaluation|].
  split; [exact reference_build|].
  split; [|by vm_compute].
  intros n. unfold out_degree, graph_at. case_decide as Hn; [|lia].
  assert (Forall (λ a, count a <= 2) reference_graph) as Hall
    by by_evaluation.
  destruct (reference_graph !! Z.to_nat n) as [a|] eqn:Ha; [|lia].
  rewrite Forall_lookup in Hall. by apply (Hall _ _ Ha).
Qed.

(** C10: in the reference build the transit slots of time 0 and of time
    T are nodes of the graph with no outgoing and no incoming edge;
    every transit slot at an end of an edge has its time in 1..T-1, and
    each slot of those times has an outgoing and an incoming edge. *)
Theorem boundary_transit_slots_isolated :
  0 <= @TRANSIT reference 0 0 < @TOTAL_NODES reference /\
  0 <= @TRANSIT reference 0 (@T reference) < @TOTAL_NODES reference /\
  @edges_of reference reference_graph (@TRANSIT reference 0 0) = [] /\
  @edges_into reference reference_graph (@TRANSIT reference 0 0) = [] /\
  @edges_of reference reference_graph
    (@TRANSIT reference 0 (@T reference)) = [] /\
  @edges_into reference reference_graph
    (@TRANSIT reference 0 (@T reference)) = [] /\
  Forall (λ c, Forall (λ t, 1 <= t <= @T reference - 1)
                 (@transit_times reference c))
    (@all_edges reference reference_graph) /\
  (forall t, 1 <= t <= @T reference - 1 ->
     @edges_of reference reference_graph (@TRANSIT reference 0 t) <> [] /\
     @edges_into reference reference_graph (@TRANSIT reference 0 t) <> []).
Proof.
  split; [by vm_compute|]. split; [by vm_compute|].
  split; [vm_compute; reflexivity|]. split; [vm_compute; reflexivity|].
  split; [vm_compute; reflexivity|]. split; [vm_compute; reflexivity|].
  split; [by_evaluation|].
  intros t Ht. simpl in Ht.
  assert (t = 1 \/ t = 2) as [-> | ->] by lia; by vm_compute.
Qed.


(** * Sequences of calls on the store *)

Section CallFacts.
Context {m : Macros}.

Lemma run_cons from e cs g :
  run ((from, e) :: cs) g = add_edge from (to e) (cap e) g ≫= run cs.
Proof.
  unfold run. simpl. apply run_from_bind.
Qed.

(** A run that ends was a run of calls on nodes, none on a full list. *)
Lemma run_Some cs : forall g g',
  wf_graph g -> run cs g = Some g' ->
  Forall (λ c : call, 0 <= c.1 < TOTAL_NODES) cs /\
  forall n,
    Z.of_nat (length (edges_of g n) + length (outgoing n cs)) <= MAX_EDGES.
Proof.
  induction cs as [|[from e] cs IH]; intros g g' Hwf Hrun.
  - split; [constructor|]. intros n. simpl.
    rewrite Nat.add_0_r, <- out_degree_length by done.
    unfold out_degree. destruct (decide (0 <= n < TOTAL_NODES)) as [Hn|Hn].
    + destruct (graph_at_wf g n Hwf Hn) as (a & -> & _ & Hc). lia.
    + rewrite graph_at_outside by done. unfold MAX_EDGES. lia.
  - rewrite run_cons in Hrun.
    destruct (add_edge from (to e) (cap e) g) as [g1|] eqn:Hadd; [|done].
    simpl in Hrun.
    assert (is_Some (add_edge from (to e) (cap e) g)) as Hdef by eauto.
    apply add_edge_defined in Hdef as (s & Hs & Hfrom & Hcount).
    unfold write_slot in Hs.
    destruct (graph_at g from) as [a|] eqn:Ha; [|done].
    injection Hs as <-. simpl in Hfrom, Hcount.
    destruct (add_edge_ok g from (to e) (cap e) Hwf Hfrom)
      as (g1' & Hadd' & Hwf1 & Hsame & Hother).
    { unfold out_degree. rewrite Ha. lia. }
    rewrite Hadd in Hadd'. injection Hadd' as <-.
    destruct (IH g1 g' Hwf1 Hrun) as [Hsrc Hroom].
    split; [by constructor|].
    intros n. specialize (Hroom n). rewrite outgoing_cons.
    destruct (decide (from = n)) as [->|Hne].
    + rewrite Hsame, length_app in Hroom. rewrite length_app. simpl in *. lia.
    + rewrite Hother in Hroom by done. done.
Qed.

End CallFacts.

Section StoreExtras.
Context {m : Macros}.

(** X1: on a well-formed store a sequence of [add_edge] calls runs to
    the end exactly when every source is a node and no list is filled
    beyond [MAX_EDGES]; the store it leaves is well formed and every list
    is the old list followed by the edges of the calls with that source,
    in call order. *)
Theorem calls_defined_iff g cs :
  wf_graph g ->
  (is_Some (run cs g) <->
     Forall (λ c : call, 0 <= c.1 < TOTAL_NODES) cs /\
     forall n,
       Z.of_nat (length (edges_of g n) + length (outgoing n cs))
         <= MAX_EDGES) /\
  (forall g', run cs g = Some g' ->
     wf_graph g' /\ forall n, edges_of g' n = edges_of g n ++ outgoing n cs).
Proof.
  intros Hwf. split; [split|].
  - intros [g' Hrun]. by apply (run_Some cs g g').
  - intros [Hsrc Hroom].
    destruct (run_ok cs g Hwf Hsrc Hroom) as (g' & Hrun & _). by exists g'.
  - intros g' Hrun. destruct (run_Some cs g g' Hwf Hrun) as [Hsrc Hroom].
    destruct (run_ok cs g Hwf Hsrc Hroom) as (g'' & Hrun' & Hwf' & Hedges).
    rewrite Hrun in Hrun'. by injection Hrun' as <-.
Qed.

(** X2: two [add_edge] calls with different sources can be swapped: both
    orders leave the same store, or are both undefined. *)
Theorem add_edge_commute g from v c from' v' c' :
  from <> from' ->
  add_edge from v c g ≫= add_edge from' v' c' =
  add_edge from' v' c' g ≫= add_edge from v c.
Proof.
  intros Hne.
  assert (forall f w k f' g0 g1, f <> f' ->
            add_edge f w k g0 = Some g1 -> graph_at g1 f' = graph_at g0 f')
    as Hframe.
  { intros f w k f' g0 g1 Hff Hadd. unfold add_edge in Hadd.
    destruct (graph_at g0 f) as [a|] eqn:Ha; [simpl in Hadd|done].
    case_decide; [|done]. injection Hadd as <-.
    unfold graph_at in *. case_decide; [|done]. case_decide; [|done].
    apply list_lookup_insert_ne. lia. }
  assert (forall f w k g0 g1,
            add_edge f w k g0 = Some g1 -> 0 <= f < TOTAL_NODES) as Hrange.
  { intros f w k g0 g1 Hadd. unfold add_edge, graph_at in Hadd.
    case_decide; [done|]. done. }
  destruct (add_edge from v c g) as [g1|] eqn:H1;
    destruct (add_edge from' v' c' g) as [g2|] eqn:H2; simpl.
  - pose proof (Hframe _ _ _ _ _ _ Hne H1) as Hat1.
    pose proof (Hframe _ _ _ _ _ _ (not_eq_sym Hne) H2) as Hat2.
    pose proof (Hrange _ _ _ _ _ H1) as Hr1.
    pose proof (Hrange _ _ _ _ _ H2) as Hr2.
    unfold add_edge in *. rewrite Hat1, Hat2.
    destruct (graph_at g from) as [a|]; [simpl in *|done].
    destruct (graph_at g from') as [a'|]; [simpl in *|done].
    case_decide; [|done]. case_decide; [|done].
    injection H1 as <-. injection H2 as <-.
    f_equal. apply list_insert_insert_ne. lia.
  - pose proof (Hframe _ _ _ _ _ _ Hne H1) as Hat1.
    unfold add_edge in *. rewrite Hat1.
    destruct (graph_at g from') as [a'|]; [simpl in *|done].
    case_decide; done.
  - pose proof (Hframe _ _ _ _ _ _ (not_eq_sym Hne) H2) as Hat2.
    unfold add_edge in *. rewrite Hat2.
    destruct (graph_at g from) as [a|]; [simpl in *|done].
    case_decide; done.
  - done.
Qed.

End StoreExtras.

(** * The built graph, for all macros *)

Section GraphFacts.
Context {m : Macros}.

Lemma outgoing_as_filter i cs :
  (λ e, (i, e)) <$> outgoing i cs = filter (λ c : call, c.1 = i) cs.
Proof.
  induction cs as [|[from e] cs IH]; [done|].
  rewrite outgoing_cons, fmap_app, filter_cons, IH. simpl.
  by destruct (decide (from = i)) as [->|Hne].
Qed.

Lemma bind_ext_in {A B} (f g : A → list B) (l : list A) :
  (forall x, x ∈ l -> f x = g x) -> l ≫= f = l ≫= g.
Proof.
  induction l as [|x l IH]; intros Hfg; [done|].
  rewrite !bind_cons, Hfg by left. f_equal. apply IH.
  intros y Hy. apply Hfg. by right.
Qed.

(** The edges a list of nodes receives from calls on those nodes are the
    calls, in another order. *)
Lemma calls_by_node l : forall cs : list call,
  NoDup l -> Forall (λ c : call, c.1 ∈ l) cs ->
  (i ← l; (λ e, (i, e)) <$> outgoing i cs) ≡ₚ cs.
Proof.
  induction l as [|i l IH]; intros cs Hnd Hsrc.
  - destruct cs as [|c cs]; [done|].
    apply Forall_cons in Hsrc as [Hc _]. by apply elem_of_nil in Hc.
  - apply NoDup_cons in Hnd as [Hi Hnd].
    rewrite bind_cons. cbv beta. rewrite outgoing_as_filter.
    etrans; [|apply (filter_app_complement (λ c : call, c.1 = i) cs)].
    apply Permutation_app; [done|].
    etrans; [|apply (IH (filter (λ c : call, c.1 ≠ i) cs) Hnd)].
    + match goal with |- ?a ≡ₚ ?b => assert (a = b) as ->; [|done] end.
      apply bind_ext_in. intros j Hj. rewrite !outgoing_as_filter.
      symmetry. apply list_filter_filter_l.
      intros c ->. by intros ->.
    + apply Forall_forall. intros c [Hne Hc]%list_elem_of_filter.
      rewrite Forall_forall in Hsrc. apply Hsrc in Hc.
      apply elem_of_cons in Hc as [?|?]; done.
Qed.

Lemma all_edges_perm g cs :
  Forall (λ c : call, 0 <= c.1 < TOTAL_NODES) cs ->
  (forall n, edges_of g n = outgoing n cs) ->
  all_edges g ≡ₚ cs.
Proof.
  intros Hsrc Hedges. unfold all_edges.
  etrans; [|apply (calls_by_node (seqZ 0 TOTAL_NODES) cs)].
  - match goal with |- ?a ≡ₚ ?b => assert (a = b) as ->; [|done] end.
    apply bind_ext_in. intros i _. by rewrite Hedges.
  - apply NoDup_seqZ.
  - eapply Forall_impl; [exact Hsrc|]. intros c Hc. simpl in Hc.
    apply elem_of_seqZ. lia.
Qed.

Lemma length_bind_const {A B} (l : list A) (f : A → list B) k :
  (forall x, length (f x) = k) -> length (l ≫= f) = (length l * k)%nat.
Proof.
  intros Hk. induction l as [|x l IH]; [done|].
  change ((x :: l) ≫= f) with (f x ++ (l ≫= f)).
  rewrite length_app, Hk, IH. simpl. lia.
Qed.

Lemma filter_all {A} (P : A → Prop) `{!∀ x, Decision (P x)} (l : list A) :
  Forall P l -> filter P l = l.
Proof.
  induction 1 as [|x l Hx _ IH]; [done|].
  by rewrite filter_cons_True, IH.
Qed.

Lemma filter_none {A} (P : A → Prop) `{!∀ x, Decision (P x)} (l : list A) :
  Forall (λ x, ¬ P x) l -> filter P l = [].
Proof.
  induction 1 as [|x l Hx _ IH]; [done|].
  by rewrite filter_cons_False, IH.
Qed.

Lemma length_split_calls :
  Z.of_nat (length split_calls) = Z.max 0 (T + 1) * Z.max 0 N_HUBS.
Proof.
  unfold split_calls.
  rewrite (length_bind_const _ _ (Z.to_nat N_HUBS)).
  - rewrite length_seqZ. lia.
  - intros t. rewrite (length_bind_const _ _ 1%nat); [|done].
    rewrite length_seqZ. lia.
Qed.

Lemma length_wait_calls :
  Z.of_nat (length wait_calls) = 2 * Z.max 0 T.
Proof.
  unfold wait_calls. rewrite (length_bind_const _ _ 2%nat); [|done].
  rewrite length_seqZ. lia.
Qed.

Lemma length_restricted_calls :
  Z.of_nat (length restricted_calls) = 2 * Z.max 0 (T - 1).
Proof.
  unfold restricted_calls. rewrite (length_bind_const _ _ 2%nat); [|done].
  rewrite length_seqZ. lia.
Qed.

Lemma length_normal_calls :
  Z.of_nat (length normal_calls) = Z.max 0 T.
Proof.
  unfold normal_calls. rewrite (length_bind_const _ _ 1%nat); [|done].
  rewrite length_seqZ. lia.
Qed.

(** The number of emitted calls of one kind. *)
Lemma count_emitted k :
  builder_macros ->
  length (filter (λ c, kind_of c = k) emitted) =
  ((if decide (k = CapacitySplit) then length split_calls else 0) +
   (if decide (k = WaitEdge) then length wait_calls else 0) +
   (if decide (k = TransitRoute) then length restricted_calls else 0) +
   (if decide (k = Unrestricted) then length normal_calls else 0))%nat.
Proof.
  intros Hb. unfold emitted. rewrite !filter_app, !length_app.
  assert (forall (l : list call) k0,
            (forall c, c ∈ l -> kind_of c = k0) ->
            length (filter (λ c, kind_of c = k) l) =
            if decide (k = k0) then length l else 0%nat) as Hphase.
  { intros l k0 Hl. case_decide as Hk.
    - subst k0. rewrite filter_all; [done|]. by apply Forall_forall.
    - rewrite filter_none; [done|]. apply Forall_forall.
      intros c Hc Hkc. apply Hk. by rewrite <- Hkc, (Hl c Hc). }
  rewrite (Hphase split_calls CapacitySplit),
    (Hphase wait_calls WaitEdge), (Hphase restricted_calls TransitRoute),
    (Hphase normal_calls Unrestricted); [lia|..].
  - intros c. by apply kind_of_normal.
  - intros c. by apply kind_of_restricted.
  - intros c. by apply kind_of_wait.
  - intros c. by apply kind_of_split.
Qed.

(** A build on a store with room for 2 more edges in every list. *)
Lemma build_example_adds g0 :
  builder_macros -> wf_graph g0 ->
  (forall n, out_degree g0 n <= MAX_EDGES - 2) ->
  exists g, build_example g0 = Some g /\ wf_graph g /\
    forall n, edges_of g n = edges_of g0 n ++ outgoing n emitted.
Proof.
  intros Hb Hwf Hroom. rewrite build_example_run.
  apply run_ok; [done|..].
  - apply Forall_forall. intros c Hc. by apply emitted_in_range.
  - intros n. specialize (Hroom n).
    rewrite out_degree_length in Hroom by done.
    pose proof (outgoing_length n Hb). lia.
Qed.

End GraphFacts.

Section GraphExtras.
Context {m : Macros}.

(** X3: for all macros the builder is written for, the build of the
    initial store runs to the end and the list of every node is the one
    of the table [adjacency]: an arrival node holds its split edge; a
    departure node holds, in this order, its wait edge (hubs 0 and 2,
    t < T), its edge into the transit slot (hub 0, t <= T-2) and its
    direct edge to hub 2 (hub 1, t < T); a transit slot of row 0 and
    time 1..T-1 holds its edge to hub 1; every other node holds none. *)
Theorem adjacency_table :
  builder_macros ->
  exists g, build_example graph_init = Some g /\
    (forall c, valid_coord c -> edges_of g (node_id c) = adjacency c) /\
    (forall n, ~ 0 <= n < TOTAL_NODES -> edges_of g n = []).
Proof.
  intros Hb. destruct (build_example_ok Hb) as (g & Hg & _ & Hedges).
  exists g. split_and!; [done|..].
  - intros c Hc. rewrite Hedges.
    destruct c as [u t|u t|e s]; simpl.
    + by apply outgoing_arrival.
    + by apply outgoing_departure.
    + by apply outgoing_transit.
  - intros n Hn. rewrite Hedges. by apply outgoing_outside.
Qed.

(** X4: whatever the horizon T and the number of hubs, the build of the
    initial store never comes near the bound of the arrays: it runs to
    the end, the store stays well formed, no node gets more than 2
    edges, and both ends of every stored edge are nodes. *)
Theorem build_never_overflows :
  builder_macros ->
  exists g, build_example graph_init = Some g /\ wf_graph g /\
    (forall n, out_degree g n <= 2) /\
    (forall n e, e ∈ edges_of g n ->
       0 <= n < TOTAL_NODES /\ 0 <= to e < TOTAL_NODES).
Proof.
  intros Hb. destruct (build_example_ok Hb) as (g & Hg & Hwf & Hedges).
  exists g. split_and!; [done..| |].
  - intros n. rewrite out_degree_length, Hedges by done.
    pose proof (outgoing_length n Hb). lia.
  - intros n e He. rewrite Hedges in He. apply elem_of_outgoing in He.
    by apply (emitted_in_range (n, e)).
Qed.

(** X5: the built store holds exactly the calls of the builder, each
    once: listing the store node by node gives a rearrangement of the
    sequence of calls, so no edge is lost, merged or invented, and there
    are [(T+1)*H + 2*T + 2*max(0,T-1) + T] edges. *)
Theorem built_edges_are_the_calls :
  builder_macros ->
  exists g, build_example graph_init = Some g /\
    all_edges g ≡ₚ emitted /\
    Z.of_nat (length (all_edges g)) =
      (T + 1) * N_HUBS + 2 * T + 2 * Z.max 0 (T - 1) + T.
Proof.
  intros Hb. destruct (build_example_ok Hb) as (g & Hg & Hwf & Hedges).
  assert (all_edges g ≡ₚ emitted) as Hperm.
  { apply all_edges_perm; [|done]. apply Forall_forall.
    intros c Hc. by apply emitted_in_range. }
  exists g. split_and!; [done..|].
  rewrite Hperm. unfold emitted. rewrite !length_app, !Nat2Z.inj_add.
  rewrite length_split_calls, length_wait_calls, length_restricted_calls,
    length_normal_calls.
  destruct Hb as (HN & HT & _). lia.
Qed.

(** X6: for all macros the builder is written for, the built graph holds
    [(T+1)*H] capacity-split edges, [2*T] wait edges, [2*max(0,T-1)]
    transit-route edges, [T] unrestricted edges and no edge of another
    shape. *)
Theorem edge_counts :
  builder_macros ->
  exists g, build_example graph_init = Some g /\
    Z.of_nat (count_kind CapacitySplit g) = (T + 1) * N_HUBS /\
    Z.of_nat (count_kind WaitEdge g) = 2 * T /\
    Z.of_nat (count_kind TransitRoute g) = 2 * Z.max 0 (T - 1) /\
    Z.of_nat (count_kind Unrestricted g) = T /\
    count_kind Unclassified g = 0%nat.
Proof.
  intros Hb. destruct (build_example_ok Hb) as (g & Hg & Hwf & Hedges).
  assert (all_edges g ≡ₚ emitted) as Hperm.
  { apply all_edges_perm; [|done]. apply Forall_forall.
    intros c Hc. by apply emitted_in_range. }
  assert (forall k, count_kind k g =
            length (filter (λ c, kind_of c = k) emitted)) as Hcount.
  { intros k. unfold count_kind. by rewrite Hperm. }
  exists g. pose proof Hb as (HN & HT & _).
  pose proof length_split_calls. pose proof length_wait_calls.
  pose proof length_restricted_calls. pose proof length_normal_calls.
  split_and!; [done|..]; rewrite Hcount, count_emitted by done;
    repeat case_decide; try done; lia.
Qed.

(** X7: [build_example] does not reset the store, it adds to it: run on
    any well-formed store whose lists all have room for 2 more edges, it
    runs to the end and every list is the old list followed by the edges
    the build gives that node. *)
Theorem build_is_additive g0 :
  builder_macros -> wf_graph g0 ->
  (forall n, out_degree g0 n <= MAX_EDGES - 2) ->
  exists g, build_example g0 = Some g /\ wf_graph g /\
    forall n, edges_of g n = edges_of g0 n ++ outgoing n emitted.
Proof.
  intros Hb Hwf Hroom.
  destruct (build_example_adds g0 Hb Hwf Hroom) as (g & Hg & Hwf' & Hadd).
  exists g. split; [exact Hg|]. split; [exact Hwf'|exact Hadd].
Qed.

End GraphExtras.

Section RebuildFacts.
Context {m : Macros}.

Lemma rebuild_S k :
  rebuild (S k) = rebuild k ≫= build_example.
Proof. reflexivity. Qed.

Lemma length_copies {A} k (l : list A) :
  length (mjoin (replicate k l)) = (k * length l)%nat.
Proof.
  induction k as [|k IH]; [done|].
  simpl. rewrite length_app, IH. lia.
Qed.

Lemma copies_S {A} k (l : list A) :
  mjoin (replicate (S k) l) = mjoin (replicate k l) ++ l.
Proof.
  induction k as [|k IH]; [simpl; by rewrite app_nil_r|].
  change (mjoin (replicate (S (S k)) l))
    with (l ++ mjoin (replicate (S k) l)).
  rewrite IH at 1. by rewrite app_assoc.
Qed.

(** After [k] builds every list is [k] copies of what one build gives. *)
Lemma rebuild_ok k :
  builder_macros -> (2 * Z.of_nat k <= MAX_EDGES) ->
  exists g, rebuild k = Some g /\ wf_graph g /\
    forall n, edges_of g n = mjoin (replicate k (outgoing n emitted)).
Proof.
  intros Hb. induction k as [|k IH]; intros Hk.
  - exists graph_init. split; [done|]. split; [apply wf_graph_init|].
    intros n. by rewrite edges_of_init.
  - destruct IH as (g & Hg & Hwf & Hedges); [lia|].
    destruct (build_example_adds g Hb Hwf) as (g' & Hg' & Hwf' & Hedges').
    { intros n. rewrite out_degree_length, Hedges, length_copies by done.
      pose proof (outgoing_length n Hb). nia. }
    exists g'. rewrite rebuild_S, Hg. split; [done|]. split; [done|].
    intros n. by rewrite Hedges', Hedges, copies_S.
Qed.

End RebuildFacts.

Section TimeFacts.
Context {m : Macros}.

Lemma time_rank_node_id c :
  valid_macros -> valid_coord c ->
  time_rank (node_id c) =
  match c with
  | Arrival _ t => 3 * t
  | Departure _ t => 3 * t + 1
  | TransitSlot _ s => 3 * s - 1
  end.
Proof.
  intros Hm Hc. unfold time_rank. by rewrite decode_node_id.
Qed.

Lemma time_rank_IN u t :
  valid_macros -> valid_hub_time u t -> time_rank (IN u t) = 3 * t.
Proof. apply (time_rank_node_id (Arrival u t)). Qed.

Lemma time_rank_OUT u t :
  valid_macros -> valid_hub_time u t -> time_rank (OUT u t) = 3 * t + 1.
Proof. apply (time_rank_node_id (Departure u t)). Qed.

Lemma time_rank_TRANSIT e s :
  valid_macros -> valid_route_time e s ->
  time_rank (TRANSIT e s) = 3 * s - 1.
Proof. apply (time_rank_node_id (TransitSlot e s)). Qed.

(** Every call of the builder goes forward in time. *)
Lemma emitted_forward c :
  builder_macros -> c ∈ emitted -> time_rank c.1 < time_rank (to c.2).
Proof.
  intros Hb Hc. pose proof (builder_macros_valid Hb) as Hm.
  destruct Hb as (HN & HT & HR & HTR).
  apply elem_of_emitted in Hc as [Hc|[Hc|[Hc|Hc]]].
  - apply elem_of_split_calls in Hc as (t & u & Ht & Hu & ->). simpl.
    rewrite time_rank_IN, time_rank_OUT by done. lia.
  - apply elem_of_wait_calls in Hc as (t & Ht & [-> | ->]); simpl;
      rewrite time_rank_IN, time_rank_OUT by (done || (split; lia)); lia.
  - apply elem_of_restricted_calls in Hc as (t & Ht & [-> | ->]); simpl.
    + rewrite time_rank_TRANSIT, time_rank_OUT
        by (done || (split; lia)). lia.
    + rewrite time_rank_TRANSIT, time_rank_IN
        by (done || (split; lia)). lia.
  - apply elem_of_normal_calls in Hc as (t & Ht & ->). simpl.
    rewrite time_rank_IN, time_rank_OUT by (done || (split; lia)). lia.
Qed.

Lemma walk_forward g (rank : Z → Z) ns : forall n,
  (forall n e, e ∈ edges_of g n -> rank n < rank (to e)) ->
  walk g n ns -> forall x, x ∈ ns -> rank n < rank x.
Proof.
  induction ns as [|n' ns IH]; intros n Hfw Hwalk x Hx.
  - by apply elem_of_nil in Hx.
  - destruct Hwalk as [(e & He & <-) Hwalk].
    pose proof (Hfw n e He) as Hstep.
    apply elem_of_cons in Hx as [->|Hx]; [done|].
    pose proof (IH (to e) Hfw Hwalk x Hx). lia.
Qed.

End TimeFacts.

Section ShapeExtras.
Context {m : Macros}.

(** X8: [build_example] can be called again and again on the same store
    as long as the arrays have room: after [k <= 64] calls every list is
    [k] copies of what one build gives; when the restricted loop runs
    (T >= 2) node [OUT(0,0)] then holds 128 edges and the 65th call
    writes outside its array. *)
Theorem rebuild_bound :
  builder_macros ->
  (forall k, (k <= 64)%nat ->
     exists g, rebuild k = Some g /\
       forall n, edges_of g n = mjoin (replicate k (outgoing n emitted))) /\
  (2 <= T -> rebuild 65 = None).
Proof.
  intros Hb. split.
  - intros k Hk. destruct (rebuild_ok k Hb) as (g & Hg & _ & Hedges).
    { unfold MAX_EDGES. lia. }
    by exists g.
  - intros HT. destruct (rebuild_ok 64 Hb) as (g & Hg & Hwf & Hedges).
    { unfold MAX_EDGES. lia. }
    rewrite rebuild_S, Hg. simpl. rewrite build_example_run.
    destruct (run emitted g) as [g'|] eqn:Hrun; [|done]. exfalso.
    destruct (run_Some emitted g g' Hwf Hrun) as [_ Hroom].
    specialize (Hroom (OUT 0 0)). pose proof Hb as (HN & _).
    rewrite Hedges, length_copies in Hroom.
    rewrite outgoing_departure in Hroom by (done || (split; lia)).
    unfold adjacency in Hroom. rewrite !decide_True in Hroom by lia.
    rewrite decide_False in Hroom by lia. simpl in Hroom.
    unfold MAX_EDGES in Hroom. lia.
Qed.

(** X9: every edge of the built graph goes forward in time (from
    arrival to departure within a step, from a step to its transit slot
    and on to the next steps), so the built graph has no cycle: no walk
    of one edge or more comes back to its first node. *)
Theorem built_graph_acyclic :
  builder_macros ->
  exists g, build_example graph_init = Some g /\
    (forall n e, e ∈ edges_of g n -> time_rank n < time_rank (to e)) /\
    (forall n ns, ns <> [] -> walk g n ns -> last ns <> Some n).
Proof.
  intros Hb. destruct (build_example_ok Hb) as (g & Hg & _ & Hedges).
  assert (forall n e, e ∈ edges_of g n -> time_rank n < time_rank (to e))
    as Hfw.
  { intros n e He. rewrite Hedges in He. apply elem_of_outgoing in He.
    by apply (emitted_forward (n, e)). }
  exists g. split_and!; [done..|].
  intros n ns _ Hwalk Hlast.
  apply last_Some_elem_of in Hlast.
  pose proof (walk_forward g time_rank ns n Hfw Hwalk n Hlast). lia.
Qed.

(** X10: the split of a hub-time pair is respected by the whole build:
    the only edge that leaves [IN(u,t)] is the edge to [OUT(u,t)] of
    capacity 1, and it is the only edge that enters [OUT(u,t)], so
    whatever passes through hub [u] at time [t] passes through that
    edge. *)
Theorem hub_split_is_the_only_way :
  builder_macros ->
  exists g, build_example graph_init = Some g /\
    forall u t, valid_hub_time u t ->
      edges_of g (IN u t) = [mkEdge (OUT u t) 1] /\
      forall c, c ∈ all_edges g -> to c.2 = OUT u t ->
        c = (IN u t, mkEdge (OUT u t) 1).
Proof.
  intros Hb. destruct (build_example_ok Hb) as (g & Hg & _ & Hedges).
  exists g. split; [done|]. intros u t Hv. split.
  - rewrite Hedges. by apply outgoing_arrival.
  - intros c Hc%(all_edges_emitted g _ Hb Hedges) Hto.
    destruct Hv as [Hu Ht]. pose proof Hb as (HN & HT & HR & HTR).
    apply elem_of_emitted in Hc as [Hc|[Hc|[Hc|Hc]]].
    + apply elem_of_split_calls in Hc as (t' & u' & Ht' & Hu' & ->).
      simpl in Hto. unfold OUT in Hto.
      assert (hub_time u' t' = hub_time u t) as Heq by lia.
      apply hub_time_inj in Heq as [-> ->]; done.
    + apply elem_of_wait_calls in Hc as (t' & Ht' & [-> | ->]);
        simpl in Hto; exfalso; ids.
    + apply elem_of_restricted_calls in Hc as (t' & Ht' & [-> | ->]);
        simpl in Hto; exfalso; ids.
    + apply elem_of_normal_calls in Hc as (t' & Ht' & ->).
      simpl in Hto. exfalso. ids.
Qed.

(** X11: of all the transit slots the id space reserves, the build uses
    only those of row 0 at the times 1..T-1: exactly these have an
    outgoing edge, and exactly these have an incoming edge; the slots of
    time 0 and T and every row other than 0 stay isolated. *)
Theorem transit_slots_used :
  builder_macros ->
  exists g, build_example graph_init = Some g /\
    forall e s, valid_route_time e s ->
      (edges_of g (TRANSIT e s) <> [] <-> e = 0 /\ 1 <= s <= T - 1) /\
      ((exists c, c ∈ all_edges g /\ to c.2 = TRANSIT e s) <->
       e = 0 /\ 1 <= s <= T - 1).
Proof.
  intros Hb. destruct (build_example_ok Hb) as (g & Hg & _ & Hedges).
  exists g. split; [done|]. intros e s Hv. split.
  - rewrite Hedges, outgoing_transit by done. unfold adjacency.
    case_decide; split; done.
  - destruct Hv as [He Hs]. pose proof Hb as (HN & HT & HR & HTR). split.
    + intros (c & Hc%(all_edges_emitted g _ Hb Hedges) & Hto).
      apply elem_of_emitted in Hc as [Hc|[Hc|[Hc|Hc]]].
      * apply elem_of_split_calls in Hc as (t' & u' & Ht' & Hu' & ->).
        simpl in Hto. exfalso. ids.
      * apply elem_of_wait_calls in Hc as (t' & Ht' & [-> | ->]);
          simpl in Hto; exfalso; ids.
      * apply elem_of_restricted_calls in Hc as (t' & Ht' & [-> | ->]);
          simpl in Hto; [|exfalso; ids].
        apply TRANSIT_inj in Hto as [<- <-]; lia.
      * apply elem_of_normal_calls in Hc as (t' & Ht' & ->).
        simpl in Hto. exfalso. ids.
    + intros [-> Hs'].
      exists (OUT 0 (s - 1), mkEdge (TRANSIT 0 (s - 1 + 1)) 1). split.
      * apply (all_edges_emitted g _ Hb Hedges), elem_of_emitted.
        right; right; left. apply elem_of_restricted_calls.
        exists (s - 1). split; [lia|by left].
      * simpl. f_equal. lia.
Qed.

End ShapeExtras.

(** * Printing *)

Section PrintLoopFacts.

Lemma print_fold_ok (body : Z → option (list string)) f l : forall acc,
  (forall j, j ∈ l -> body j = Some (f j)) ->
  foldl (λ acc j, out ← acc; o ← body j; Some (out ++ o)) (Some acc) l =
  Some (acc ++ (l ≫= f)).
Proof.
  induction l as [|j l IH]; intros acc Hbody.
  - simpl. by rewrite app_nil_r.
  - simpl. rewrite Hbody by left. simpl. rewrite IH.
    + by rewrite <- app_assoc.
    + intros j' Hj'. apply Hbody. by right.
Qed.

Lemma print_fold_None (body : Z → option (list string)) l :
  foldl (λ acc j, out ← acc; o ← body j; Some (out ++ o)) None l = None.
Proof. induction l as [|j l IH]; [done|]. exact IH. Qed.

Lemma print_fold_fail (body : Z → option (list string)) l j0 : forall acc,
  j0 ∈ l -> body j0 = None ->
  foldl (λ acc j, out ← acc; o ← body j; Some (out ++ o)) acc l = None.
Proof.
  induction l as [|j l IH]; intros acc Hin Hnone.
  - by apply elem_of_nil in Hin.
  - simpl. apply elem_of_cons in Hin as [<-|Hin].
    + rewrite Hnone. destruct acc; simpl; apply print_fold_None.
    + by apply IH.
Qed.

Lemma for_print_ok lo hi body f :
  (forall j, lo <= j < hi -> body j = Some (f j)) ->
  for_print lo hi body = Some (seqZ lo (hi - lo) ≫= f).
Proof.
  intros Hbody. unfold for_print. rewrite (print_fold_ok body f); [done|].
  intros j Hj%elem_of_seqZ. apply Hbody. lia.
Qed.

Lemma for_print_fail lo hi body j0 :
  lo <= j0 < hi -> body j0 = None -> for_print lo hi body = None.
Proof.
  intros Hj0 Hnone. unfold for_print. apply (print_fold_fail body _ j0).
  - apply elem_of_seqZ. lia.
  - done.
Qed.

(** Reading the first [n] cells one by one gives the first [n] cells. *)
Lemma cells_in_order {B} (h : Edge → B) (es : list Edge) (n : nat) :
  (n <= length es)%nat ->
  (j ← seqZ 0 (Z.of_nat n);
     match es !! Z.to_nat j with Some e => [h e] | None => [] end)
  = h <$> take n es.
Proof.
  induction n as [|n IH]; intros Hn; [done|].
  rewrite seqZ_S, bind_app, IH by lia.
  destruct (lookup_lt_is_Some_2 es n) as [e He]; [lia|].
  rewrite (take_S_r _ _ e), fmap_app by done. f_equal.
  replace (0 + Z.of_nat n) with (Z.of_nat n) by lia.
  rewrite bind_cons, Nat2Z.id, He. done.
Qed.

End PrintLoopFacts.

Section PrintFacts.
Context {m : Macros}.

Lemma print_node_ok g i :
  wf_graph g -> 0 <= i < TOTAL_NODES ->
  print_node g i = Some (node_listing i (edges_of g i)).
Proof.
  intros Hwf Hi. destruct (graph_at_wf g i Hwf Hi) as (a & Ha & Hlen & Hc).
  unfold print_node, edges_of. rewrite Ha. simpl.
  case_decide as Hzero.
  - by rewrite Hzero.
  - rewrite (for_print_ok 0 (count a) _
      (λ j, match edges a !! Z.to_nat j with
            | Some e => [edge_line e] | None => [] end)).
    + simpl. rewrite Z.sub_0_r.
      rewrite <- (Z2Nat.id (count a)) at 1 by lia.
      rewrite cells_in_order by lia.
      destruct (take (Z.to_nat (count a)) (edges a)) as [|e es] eqn:E;
        [|done].
      apply (f_equal length) in E. rewrite length_take in E. simpl in E.
      lia.
    + intros j Hj. unfold edge_at. rewrite decide_True by lia.
      destruct (lookup_lt_is_Some_2 (edges a) (Z.to_nat j)) as [e ->];
        [lia|done].
Qed.

Lemma print_graph_ok g :
  wf_graph g ->
  print_graph g =
  Some (i ← seqZ 0 TOTAL_NODES; node_listing i (edges_of g i)).
Proof.
  intros Hwf. unfold print_graph.
  rewrite (for_print_ok 0 TOTAL_NODES _
             (λ i, node_listing i (edges_of g i))).
  - by rewrite Z.sub_0_r.
  - intros i Hi. by apply print_node_ok.
Qed.

End PrintFacts.

Section PrintExtras.
Context {m : Macros}.

(** What [print_node] prints for a list of the right length whose count
    does not exceed it. *)
Lemma print_node_shape g i a :
  graph_at g i = Some a ->
  length (edges a) = Z.to_nat MAX_EDGES -> count a <= MAX_EDGES ->
  print_node g i =
  Some (if decide (count a = 0) then []
        else node_line i
               :: (edge_line <$> take (Z.to_nat (count a)) (edges a))).
Proof.
  intros Ha Hlen Hc. unfold print_node. rewrite Ha. simpl.
  case_decide as Hzero; [done|].
  rewrite (for_print_ok 0 (count a) _
    (λ j, match edges a !! Z.to_nat j with
          | Some e => [edge_line e] | None => [] end)).
  - simpl. rewrite Z.sub_0_r. destruct (decide (0 <= count a)) as [Hpos|Hneg].
    + rewrite <- (Z2Nat.id (count a)) at 1 by lia.
      by rewrite cells_in_order by lia.
    + rewrite seqZ_nil by lia.
      by replace (Z.to_nat (count a)) with 0%nat by lia.
  - intros j Hj. unfold edge_at. rewrite decide_True by lia.
    destruct (lookup_lt_is_Some_2 (edges a) (Z.to_nat j)) as [e ->];
      [lia|done].
Qed.

(** X12: on a well-formed store [print_graph] reads inside the arrays
    and prints, for the nodes in ascending id, nothing for a node
    without edges and else the line of the node followed by one line for
    each of its edges, in the order of its list. *)
Theorem print_graph_lists_the_store g :
  wf_graph g ->
  print_graph g =
  Some (i ← seqZ 0 TOTAL_NODES;
        match edges_of g i with
        | [] => []
        | es => node_line i :: (edge_line <$> es)
        end).
Proof.
  intros Hwf. rewrite print_graph_ok by done. f_equal.
  apply bind_ext_in. intros i _. by destruct (edges_of g i).
Qed.

(** X13: [print_graph] trusts the counts it finds: on a store of the
    right shape (the right number of lists, each array of [MAX_EDGES]
    cells) it is defined exactly when no count exceeds [MAX_EDGES];
    with a larger count it reads [edges[MAX_EDGES]], outside the array. *)
Theorem print_graph_defined_iff g :
  length g = Z.to_nat TOTAL_NODES ->
  Forall (λ a, length (edges a) = Z.to_nat MAX_EDGES) g ->
  (is_Some (print_graph g) <-> Forall (λ a, count a <= MAX_EDGES) g).
Proof.
  intros Hlen Hshape. split.
  - intros Hsome. apply Forall_lookup. intros k a Hk.
    destruct (decide (count a <= MAX_EDGES)) as [|Hbig]; [done|].
    exfalso. assert (0 <= MAX_EDGES) as Hmax by (unfold MAX_EDGES; lia).
    assert (k < length g)%nat as Hlt by by eapply lookup_lt_Some.
    assert (graph_at g (Z.of_nat k) = Some a) as Ha.
    { unfold graph_at. rewrite decide_True by lia. by rewrite Nat2Z.id. }
    assert (print_node g (Z.of_nat k) = None) as Hnode.
    { unfold print_node. rewrite Ha. simpl.
      rewrite decide_False by lia.
      rewrite (for_print_fail 0 (count a) _ MAX_EDGES); [done|lia|].
      unfold edge_at. by rewrite decide_False by lia. }
    unfold print_graph in Hsome.
    rewrite (for_print_fail 0 TOTAL_NODES _ (Z.of_nat k)) in Hsome;
      [by destruct Hsome|lia|done].
  - intros Hcounts. unfold print_graph.
    rewrite (for_print_ok 0 TOTAL_NODES _
      (λ i, match graph_at g i with
            | Some a =>
                if decide (count a = 0) then []
                else node_line i
                  :: (edge_line <$> take (Z.to_nat (count a)) (edges a))
            | None => []
            end)); [done|].
    intros i Hi.
    destruct (lookup_lt_is_Some_2 g (Z.to_nat i)) as [a Ha]; [lia|].
    assert (graph_at g i = Some a) as Hat.
    { unfold graph_at. by rewrite decide_True. }
    rewrite Hat.
    rewrite Forall_lookup in Hshape. rewrite Forall_lookup in Hcounts.
    apply print_node_shape; [done|..].
    + by apply (Hshape _ _ Ha).
    + by apply (Hcounts _ _ Ha).
Qed.

(** X14: on the initial store, before any build, [print_graph] prints
    nothing, whatever the macros. *)
Theorem print_graph_initial :
  print_graph graph_init = Some [].
Proof.
  rewrite print_graph_ok by apply wf_graph_init. f_equal.
  apply bind_all_nil. intros i _. by rewrite edges_of_init.
Qed.

(** X15: for all macros the builder is written for, [main] runs without
    undefined behaviour, returns 0 and prints the built graph: for each
    node in ascending id that was the source of a call, its line and one
    line for each call with that source, in call order. *)
Theorem main_prints_the_build :
  builder_macros ->
  main =
  Some (i ← seqZ 0 TOTAL_NODES;
        match outgoing i emitted with
        | [] => []
        | es => node_line i :: (edge_line <$> es)
        end, 0).
Proof.
  intros Hb. destruct (build_example_ok Hb) as (g & Hg & Hwf & Hedges).
  unfold main. rewrite Hg. simpl. rewrite print_graph_ok by done. simpl.
  do 2 f_equal. apply bind_ext_in. intros i _. rewrite Hedges.
  by destruct (outgoing i emitted).
Qed.

End PrintExtras.

(** X16: with the macros of the file the program prints the 48 lines of
    [reference_output], each followed by a newline, and returns 0. *)
Theorem main_output :
  @main reference = Some ((λ l, l +:+ newline) <$> reference_output, 0).
Proof. vm_compute. reflexivity. Qed.

Section IndexerExtras.
Context {m : Macros}.


(** X18: the layout is by time: among valid coordinates a departure id
    is the arrival id plus one, every hub node of an earlier time has a
    smaller id than every hub node of a later time, every hub node has a
    smaller id than every transit slot, and transit slots of an earlier
    time have smaller ids than those of a later time. *)
Theorem layout_is_time_major :
  valid_macros ->
  (forall u t, OUT u t = IN u t + 1) /\
  (forall u t u' t', valid_hub_time u t -> valid_hub_time u' t' ->
     t < t' -> OUT u t < IN u' t') /\
  (forall u t e s, valid_hub_time u t -> valid_route_time e s ->
     OUT u t < TRANSIT e s) /\
  (forall e s e' s', valid_route_time e s -> valid_route_time e' s' ->
     s < s' -> TRANSIT e s < TRANSIT e' s').
Proof.
  intros (HN & HT & HR). split_and!.
  - intros u t. unfold OUT, IN. lia.
  - intros u t u' t' [Hu Ht] [Hu' Ht'] Hlt. unfold OUT, IN, hub_time. nia.
  - intros u t e s Hv He.
    pose proof (OUT_range u t Hv). pose proof (TRANSIT_range e s He).
    unfold TRANSIT_OFFSET in *. lia.
  - intros e s e' s' [He Hs] [He' Hs'] Hlt. unfold TRANSIT. nia.
Qed.

End IndexerExtras.

(** * Witnesses of the properties above, with the macros of the file *)

(** X1, witness: one call on the initial store. *)
Lemma calls_defined_iff_initial :
  @wf_graph reference (@graph_init reference) /\
  forall g', @run reference [(0, mkEdge 1 1)] (@graph_init reference)
               = Some g' ->
    @edges_of reference g' 0 = [mkEdge 1 1].
Proof.
  assert (@wf_graph reference (@graph_init reference)) as Hwf.
  { apply (bool_decide_unpack _). vm_compute. exact I. }
  split; [exact Hwf|]. intros g' Hrun.
  destruct (@calls_defined_iff reference _ [(0, mkEdge 1 1)] Hwf)
    as [_ Hres].
  destruct (Hres g' Hrun) as [_ Hedges]. rewrite Hedges. reflexivity.
Defined.

(** X2, witness: calls on the nodes 0 and 1 of the initial store. *)
Lemma add_edge_commute_initial :
  0 <> 1 /\
  @add_edge reference 0 1 1 (@graph_init reference)
    ≫= @add_edge reference 1 6 100 =
  @add_edge reference 1 6 100 (@graph_init reference)
    ≫= @add_edge reference 0 1 1.
Proof.
  assert (0 <> 1) as Hne by lia.
  split; [exact Hne|]. apply (@add_edge_commute reference). exact Hne.
Defined.

(** X3, witness: the list of [OUT(1,0)]. *)
Lemma adjacency_table_reference :
  @builder_macros reference /\
  exists g, @build_example reference (@graph_init reference) = Some g /\
    @edges_of reference g (@OUT reference 1 0) =
      [mkEdge (@IN reference 2 (0 + 1)) 1].
Proof.
  split; [exact reference_builder_macros|].
  destruct (@adjacency_table reference reference_builder_macros)
    as (g & Hg & Htable & _).
  exists g. split; [exact Hg|].
  apply (Htable (Departure 1 0)). simpl. unfold valid_hub_time. simpl. lia.
Defined.

(** X4, witness. *)
Lemma build_never_overflows_reference :
  @builder_macros reference /\
  exists g, @build_example reference (@graph_init reference) = Some g /\
    forall n, @out_degree reference g n <= 2.
Proof.
  split; [exact reference_builder_macros|].
  destruct (@build_never_overflows reference reference_builder_macros)
    as (g & Hg & _ & Hdeg & _).
  exists g. split; [exact Hg|exact Hdeg].
Defined.

(** X5, witness: 25 edges. *)
Lemma built_edges_are_the_calls_reference :
  @builder_macros reference /\
  exists g, @build_example reference (@graph_init reference) = Some g /\
    Z.of_nat (length (@all_edges reference g)) = 25.
Proof.
  split; [exact reference_builder_macros|].
  destruct (@built_edges_are_the_calls reference reference_builder_macros)
    as (g & Hg & _ & Hlen).
  exists g. split; [exact Hg|]. rewrite Hlen. reflexivity.
Defined.

(** X6, witness: 12 capacity-split edges. *)
Lemma edge_counts_reference :
  @builder_macros reference /\
  exists g, @build_example reference (@graph_init reference) = Some g /\
    Z.of_nat (@count_kind reference CapacitySplit g) = 12.
Proof.
  split; [exact reference_builder_macros|].
  destruct (@edge_counts reference reference_builder_macros)
    as (g & Hg & Hsplit & _).
  exists g. split; [exact Hg|]. rewrite Hsplit. reflexivity.
Defined.

(** X7, witness: a second build on the built store of the file. *)
Lemma build_is_additive_reference :
  @builder_macros reference /\ @wf_graph reference reference_graph /\
  (forall n, @out_degree reference reference_graph n <= MAX_EDGES - 2) /\
  exists g, @build_example reference reference_graph = Some g /\
    forall n, @edges_of reference g n =
      @edges_of reference reference_graph n
        ++ @outgoing n (@emitted reference).
Proof.
  assert (@wf_graph reference reference_graph) as Hwf.
  { apply (bool_decide_unpack _). vm_compute. exact I. }
  assert (forall n, @out_degree reference reference_graph n
                      <= MAX_EDGES - 2) as Hroom.
  { intros n. unfold out_degree, graph_at, MAX_EDGES.
    destruct (decide (0 <= n < @TOTAL_NODES reference)) as [Hn|Hn]; [|lia].
    assert (Forall (λ a, count a <= 126) reference_graph) as Hall.
    { apply (bool_decide_unpack _). vm_compute. exact I. }
    destruct (reference_graph !! Z.to_nat n) as [a|] eqn:Ha; [|lia].
    rewrite Forall_lookup in Hall. exact (Hall _ _ Ha). }
  split; [exact reference_builder_macros|].
  split; [exact Hwf|]. split; [exact Hroom|].
  destruct (@build_is_additive reference reference_graph
              reference_builder_macros Hwf Hroom) as (g & Hg & _ & Hedges).
  exists g. split; [exact Hg|exact Hedges].
Defined.

(** X8, witness: two builds run, sixty-five do not. *)
Lemma rebuild_bound_reference :
  @builder_macros reference /\ (2 <= 64)%nat /\ 2 <= @T reference /\
  is_Some (@rebuild reference 2) /\ @rebuild reference 65 = None.
Proof.
  assert (2 <= 64)%nat as H2 by lia.
  assert (2 <= @T reference) as HT by (simpl; lia).
  split; [exact reference_builder_macros|].
  split; [exact H2|]. split; [exact HT|].
  destruct (@rebuild_bound reference reference_builder_macros)
    as [Hok Hfail].
  split; [|exact (Hfail HT)].
  destruct (Hok 2%nat H2) as (g & Hg & _). exists g. exact Hg.
Defined.

(** X9, witness. *)
Lemma built_graph_acyclic_reference :
  @builder_macros reference /\
  exists g, @build_example reference (@graph_init reference) = Some g /\
    forall n ns, ns <> [] -> @walk reference g n ns -> last ns <> Some n.
Proof.
  split; [exact reference_builder_macros|].
  destruct (@built_graph_acyclic reference reference_builder_macros)
    as (g & Hg & _ & Hacyclic).
  exists g. split; [exact Hg|exact Hacyclic].
Defined.

(** X10, witness: hub 1 at time 2. *)
Lemma hub_split_is_the_only_way_reference :
  @builder_macros reference /\ @valid_hub_time reference 1 2 /\
  exists g, @build_example reference (@graph_init reference) = Some g /\
    @edges_of reference g (@IN reference 1 2) =
      [mkEdge (@OUT reference 1 2) 1].
Proof.
  assert (@valid_hub_time reference 1 2) as Hv.
  { unfold valid_hub_time. simpl. lia. }
  split; [exact reference_builder_macros|]. split; [exact Hv|].
  destruct (@hub_split_is_the_only_way reference reference_builder_macros)
    as (g & Hg & Hsplit).
  exists g. split; [exact Hg|]. exact (proj1 (Hsplit 1 2 Hv)).
Defined.

(** X11, witness: the slot of time 0. *)
Lemma transit_slots_used_reference :
  @builder_macros reference /\ @valid_route_time reference 0 0 /\
  exists g, @build_example reference (@graph_init reference) = Some g /\
    ~ @edges_of reference g (@TRANSIT reference 0 0) <> [].
Proof.
  assert (@valid_route_time reference 0 0) as Hv.
  { unfold valid_route_time. simpl. lia. }
  split; [exact reference_builder_macros|]. split; [exact Hv|].
  destruct (@transit_slots_used reference reference_builder_macros)
    as (g & Hg & Hused).
  exists g. split; [exact Hg|].
  intros Hne. apply (proj1 (Hused 0 0 Hv)) in Hne. simpl in Hne. lia.
Defined.

(** X12, witness: the built store of the file. *)
Lemma print_graph_lists_the_store_reference :
  @wf_graph reference reference_graph /\
  is_Some (@print_graph reference reference_graph).
Proof.
  assert (@wf_graph reference reference_graph) as Hwf.
  { apply (bool_decide_unpack _). vm_compute. exact I. }
  split; [exact Hwf|].
  rewrite (@print_graph_lists_the_store reference _ Hwf). eexists.
  reflexivity.
Defined.

(** X13, witness: the initial store of the file. *)
Lemma print_graph_defined_iff_initial :
  length (@graph_init reference) = Z.to_nat (@TOTAL_NODES reference) /\
  Forall (λ a, length (edges a) = Z.to_nat MAX_EDGES)
    (@graph_init reference) /\
  is_Some (@print_graph reference (@graph_init reference)).
Proof.
  assert (length (@graph_init reference)
            = Z.to_nat (@TOTAL_NODES reference)) as Hlen
    by (vm_compute; reflexivity).
  assert (Forall (λ a, length (edges a) = Z.to_nat MAX_EDGES)
            (@graph_init reference)) as Hshape.
  { apply (bool_decide_unpack _). vm_compute. exact I. }
  split; [exact Hlen|]. split; [exact Hshape|].
  apply (@print_graph_defined_iff reference _ Hlen Hshape).
  apply (bool_decide_unpack _). vm_compute. exact I.
Defined.

(** X15, witness. *)
Lemma main_prints_the_build_reference :
  @builder_macros reference /\
  exists out, @main reference = Some (out, 0).
Proof.
  split; [exact reference_builder_macros|].
  rewrite (@main_prints_the_build reference reference_builder_macros).
  eexists. reflexivity.
Defined.

(** X18, witness: the last hub node and the first transit slot. *)
Lemma layout_is_time_major_reference :
  @valid_macros reference /\ @valid_hub_time reference 2 3 /\
  @valid_route_time reference 0 0 /\
  @OUT reference 2 3 < @TRANSIT reference 0 0.
Proof.
  assert (@valid_macros reference) as Hm.
  { unfold valid_macros. simpl. lia. }
  assert (@valid_hub_time reference 2 3) as Hv.
  { unfold valid_hub_time. simpl. lia. }
  assert (@valid_route_time reference 0 0) as Hr.
  { unfold valid_route_time. simpl. lia. }
  split; [exact Hm|]. split; [exact Hv|]. split; [exact Hr|].
  destruct (@layout_is_time_major reference Hm) as (_ & _ & Hhub & _).
  exact (Hhub 2 3 0 0 Hv Hr).
Defined.

(** * Who reaches what, and the range of the ids *)

Section ReachExtras.
Context {m : Macros}.

(** X19: hub 1 is entered only over the restricted route: every edge
    that enters [IN(1,t)] leaves the transit slot of time [t - 1] with
    capacity 100, and [t >= 2]; with the only edge into that slot (from
    [OUT(0,t-2)]), arriving at hub 1 at time [t] takes leaving hub 0 two
    steps before. *)
Theorem hub1_only_via_transit :
  builder_macros ->
  exists g, build_example graph_init = Some g /\
    forall t c, 0 <= t <= T -> c ∈ all_edges g -> to c.2 = IN 1 t ->
      2 <= t /\ c = (TRANSIT 0 (t - 1), mkEdge (IN 1 t) 100) /\
      forall c', c' ∈ all_edges g -> to c'.2 = TRANSIT 0 (t - 1) ->
        c' = (OUT 0 (t - 2), mkEdge (TRANSIT 0 (t - 1)) 1).
Proof.
  intros Hb. destruct (build_example_ok Hb) as (g & Hg & _ & Hedges).
  pose proof Hb as (HN & HT & HR & HTR).
  exists g. split; [done|].
  intros t c Ht Hc%(all_edges_emitted g _ Hb Hedges) Hto.
  assert (2 <= t /\ c = (TRANSIT 0 (t - 1), mkEdge (IN 1 t) 100))
    as [Ht2 ->].
  { apply elem_of_emitted in Hc as [Hc|[Hc|[Hc|Hc]]].
    - apply elem_of_split_calls in Hc as (t' & u & Ht' & Hu & ->).
      simpl in Hto. exfalso. ids.
    - apply elem_of_wait_calls in Hc as (t' & Ht' & [-> | ->]);
        simpl in Hto; exfalso; ids.
    - apply elem_of_restricted_calls in Hc as (t' & Ht' & [-> | ->]);
        simpl in Hto; [exfalso; ids|].
      unfold IN in Hto.
      assert (hub_time 1 (t' + 2) = hub_time 1 t) as Heq by lia.
      apply hub_time_inj in Heq as [_ <-]; [|lia..].
      split; [lia|]. by replace (t' + 2 - 1) with (t' + 1) by lia.
    - apply elem_of_normal_calls in Hc as (t' & Ht' & ->).
      simpl in Hto. exfalso. ids. }
  split_and!; [done..|].
  intros c' Hc'%(all_edges_emitted g _ Hb Hedges) Hto'.
  apply elem_of_emitted in Hc' as [Hd|[Hd|[Hd|Hd]]].
  - apply elem_of_split_calls in Hd as (t' & u & Ht' & Hu & ->).
    simpl in Hto'. exfalso. ids.
  - apply elem_of_wait_calls in Hd as (t' & Ht' & [-> | ->]);
      simpl in Hto'; exfalso; ids.
  - apply elem_of_restricted_calls in Hd as (t' & Ht' & [-> | ->]);
      simpl in Hto'; [|exfalso; ids].
    apply TRANSIT_inj in Hto' as [_ Heq]; [|lia..].
    replace t' with (t - 2) by lia.
    by replace (t - 2 + 1) with (t - 1) by lia.
  - apply elem_of_normal_calls in Hd as (t' & Ht' & ->).
    simpl in Hto'. exfalso. ids.
Qed.

(** X20: where the built network begins and ends: no edge enters an
    arrival node of time 0, no edge leaves a departure node of time T,
    and a hub other than 0, 1 and 2 is wired to nothing: its departure
    nodes have no outgoing edge and its arrival nodes no incoming one. *)
Theorem boundary_and_unused_hub_nodes :
  builder_macros ->
  exists g, build_example graph_init = Some g /\
    (forall u c, 0 <= u < N_HUBS -> c ∈ all_edges g -> to c.2 <> IN u 0) /\
    (forall u, 0 <= u < N_HUBS -> edges_of g (OUT u T) = []) /\
    (forall u t, 3 <= u < N_HUBS -> 0 <= t <= T ->
       edges_of g (OUT u t) = [] /\
       forall c, c ∈ all_edges g -> to c.2 <> IN u t).
Proof.
  intros Hb. destruct (build_example_ok Hb) as (g & Hg & _ & Hedges).
  pose proof Hb as (HN & HT & HR & HTR).
  assert (forall u t, 0 <= u < N_HUBS -> 0 <= t <= T ->
            (t = 0 \/ 3 <= u) ->
            forall c, c ∈ all_edges g -> to c.2 <> IN u t) as Hin.
  { intros u t Hu Ht Hcase c Hc%(all_edges_emitted g _ Hb Hedges) Hto.
    apply elem_of_emitted in Hc as [Hc|[Hc|[Hc|Hc]]].
    - apply elem_of_split_calls in Hc as (t' & u' & Ht' & Hu' & ->).
      simpl in Hto. ids.
    - apply elem_of_wait_calls in Hc as (t' & Ht' & [-> | ->]);
        simpl in Hto; ids.
    - apply elem_of_restricted_calls in Hc as (t' & Ht' & [-> | ->]);
        simpl in Hto; ids.
    - apply elem_of_normal_calls in Hc as (t' & Ht' & ->).
      simpl in Hto. ids. }
  exists g. split_and!; [done|..].
  - intros u c Hu. apply (Hin u 0 Hu); [lia|by left].
  - intros u Hu. rewrite Hedges, outgoing_departure by (done || (split; lia)).
    unfold adjacency. by rewrite !decide_False by lia.
  - intros u t Hu Ht. split.
    + rewrite Hedges, outgoing_departure by (done || (split; lia)).
      unfold adjacency. by rewrite !decide_False by lia.
    + apply (Hin u t); [lia|done|right; lia].
Qed.

(** X21: on valid coordinates every value the id helpers compute on the
    way (the products, the sums and the results) lies between 0 and
    [TOTAL_NODES]; when [TOTAL_NODES] fits an [int], no [int] operation
    of the helpers overflows. *)
Theorem helpers_fit_int :
  valid_macros -> TOTAL_NODES <= INT_MAX ->
  (forall u t, valid_hub_time u t ->
     0 <= t * N_HUBS <= INT_MAX /\ 0 <= hub_time u t <= INT_MAX /\
     0 <= 2 * hub_time u t <= INT_MAX /\
     0 <= IN u t <= INT_MAX /\ 0 <= OUT u t <= INT_MAX) /\
  (forall e t, valid_route_time e t ->
     0 <= TRANSIT_OFFSET <= INT_MAX /\ 0 <= t * M_RESTRICTED <= INT_MAX /\
     0 <= TRANSIT_OFFSET + t * M_RESTRICTED <= INT_MAX /\
     0 <= TRANSIT e t <= INT_MAX).
Proof.
  intros Hm Hmax. split.
  - intros u t Hv. destruct (hub_ids_fit_int u t Hm Hmax Hv)
      as (? & ? & ? & ? & ?). done.
  - intros e t Hv. by apply transit_ids_fit_int.
Qed.

End ReachExtras.

(** X19, witness: arriving at hub 1 at time 2. *)
Lemma hub1_only_via_transit_reference :
  @builder_macros reference /\
  exists g, @build_example reference (@graph_init reference) = Some g /\
    forall c, c ∈ @all_edges reference g ->
      to c.2 = @IN reference 1 2 ->
      c = (@TRANSIT reference 0 (2 - 1), mkEdge (@IN reference 1 2) 100).
Proof.
  split; [exact reference_builder_macros|].
  destruct (@hub1_only_via_transit reference reference_builder_macros)
    as (g & Hg & Honly).
  exists g. split; [exact Hg|]. intros c Hc Hto.
  assert (0 <= 2 <= @T reference) as Ht by (simpl; lia).
  exact (proj1 (proj2 (Honly 2 c Ht Hc Hto))).
Defined.

(** X20, witness: the departure nodes of time 3. *)
Lemma boundary_and_unused_hub_nodes_reference :
  @builder_macros reference /\
  exists g, @build_example reference (@graph_init reference) = Some g /\
    forall u, 0 <= u < @N_HUBS reference ->
      @edges_of reference g (@OUT reference u (@T reference)) = [].
Proof.
  split; [exact reference_builder_macros|].
  destruct (@boundary_and_unused_hub_nodes reference
              reference_builder_macros) as (g & Hg & _ & Hlast & _).
  exists g. split; [exact Hg|exact Hlast].
Defined.

(** X21, witness: the macros of the file, 28 nodes. *)
Lemma helpers_fit_int_reference :
  @valid_macros reference /\ @TOTAL_NODES reference <= INT_MAX /\
  forall u t, @valid_hub_time reference u t ->
    0 <= @OUT reference u t <= INT_MAX.
Proof.
  assert (@valid_macros reference) as Hm.
  { unfold valid_macros. simpl. lia. }
  assert (@TOTAL_NODES reference <= INT_MAX) as Hmax by (by vm_compute).
  split; [exact Hm|]. split; [exact Hmax|].
  intros u t Hv.
  destruct (@helpers_fit_int reference Hm Hmax) as [Hhub _].
  destruct (Hhub u t Hv) as (_ & _ & _ & _ & Hout). exact Hout.
Defined.
